(** * sql_climate_demo: the climate_data table and its three reports

    A shallow embedding of [sql_climate_demo.py].  The script keeps one
    SQLite table in memory, fills it with twelve literal readings, runs
    three fixed SQL queries on it and prints the result frames together
    with a correlation matrix.

    SQL REAL values are modelled as exact rationals ([Q]): every literal of
    the script is a decimal with one fractional digit.  The correlation
    matrix needs a square root and lives in [R]. *)

From Stdlib Require Import List String Ascii ZArith QArith Qreals Reals Lra Lia Bool.
From Stdlib Require Import Permutation Sorting.Sorted OrdersEx.
Import ListNotations.

Local Open Scope string_scope.
Local Open Scope Q_scope.

(** ** Data model *)

(** One stored record of [climate_data] (the CREATE TABLE of
    [create_and_populate_db]); every column is NOT NULL. *)
Record row : Type := mkRow {
  id : Z;
  city : string;
  reading_date : string;
  temperature : Q;
  humidity : Q
}.

(** A parameter tuple bound to the four placeholders of the INSERT; a
    component is [None] for Python's [None] (SQL NULL). *)
Definition params : Type := (option string * option string * option Q * option Q)%type.

Definition reading (c d : string) (t h : Q) : params := (Some c, Some d, Some t, Some h).

(** The literal [records] list of [create_and_populate_db]. *)
Definition records : list params :=
  [ reading "New York"  "2025-01-01" (-5.2) 35.0;
    reading "New York"  "2025-01-02" (-2.1) 40.0;
    reading "New York"  "2025-01-03"   0.5  42.0;
    reading "Chicago"   "2025-01-01" (-7.0) 50.0;
    reading "Chicago"   "2025-01-02" (-5.5) 55.0;
    reading "Chicago"   "2025-01-03" (-3.2) 48.0;
    reading "Houston"   "2025-01-01"  10.2  70.0;
    reading "Houston"   "2025-01-02"  12.1  68.0;
    reading "Houston"   "2025-01-03"  15.0  65.0;
    reading "San Diego" "2025-01-01"  15.2  55.0;
    reading "San Diego" "2025-01-02"  16.5  52.0;
    reading "San Diego" "2025-01-03"  18.0  50.0 ].

(** ** Sorting, as the engine's sorter does it for ORDER BY, GROUP BY and
    PARTITION BY.  Rows with equal keys keep their input order. *)

Fixpoint insert_by {A : Type} (leb : A -> A -> bool) (x : A) (l : list A) : list A :=
  match l with
  | [] => [x]
  | y :: l' => if leb x y then x :: y :: l' else y :: insert_by leb x l'
  end.

Fixpoint sort_by {A : Type} (leb : A -> A -> bool) (l : list A) : list A :=
  match l with
  | [] => []
  | x :: l' => insert_by leb x (sort_by leb l')
  end.

(** BINARY collation on TEXT: byte-wise lexicographic comparison. *)
Definition text_compare (a b : string) : comparison := String_as_OT.compare a b.

(** A sort key made of a first column and the rest: the first column
    decides unless it ties. *)
Definition lex_leb (c : comparison) (tie : bool) : bool :=
  match c with
  | Lt => true
  | Eq => tie
  | Gt => false
  end.

Definition text_leb (a b : string) : bool := lex_leb (text_compare a b) true.

(** ** The aggregation query [query_avg]

    SELECT city, AVG(temperature) AS avg_temp, AVG(humidity) AS avg_humidity
    FROM climate_data GROUP BY city ORDER BY avg_temp DESC *)

Record avg_row : Type := mkAvg {
  a_city : string;
  avg_temp : Q;
  avg_humidity : Q
}.

(** The accumulator of AVG: running sum and number of values seen. *)
Record avg_acc : Type := mkAcc { rSum : Q; cnt : Z }.

Definition avg_init (v : Q) : avg_acc := {| rSum := v; cnt := 1 |}.

Definition avg_step (a : avg_acc) (v : Q) : avg_acc :=
  {| rSum := rSum a + v; cnt := (cnt a + 1)%Z |}.

(** A group is never empty and the columns are NOT NULL, so [cnt] is
    positive whenever a group is finalised. *)
Definition avg_final (a : avg_acc) : Q := rSum a / inject_Z (cnt a).

Record group_acc : Type := mkGroup {
  g_city : string;
  g_temp : avg_acc;
  g_hum : avg_acc
}.

Definition group_start (r : row) : group_acc :=
  {| g_city := city r; g_temp := avg_init (temperature r); g_hum := avg_init (humidity r) |}.

Definition group_step (g : group_acc) (r : row) : group_acc :=
  {| g_city := g_city g;
     g_temp := avg_step (g_temp g) (temperature r);
     g_hum := avg_step (g_hum g) (humidity r) |}.

Definition group_final (g : group_acc) : avg_row :=
  {| a_city := g_city g;
     avg_temp := avg_final (g_temp g);
     avg_humidity := avg_final (g_hum g) |}.

(** One pass over the rows sorted by the grouping key: a change of key
    closes the current group and opens the next. *)
Fixpoint group_scan (cur : option group_acc) (l : list row) : list avg_row :=
  match l with
  | [] => match cur with Some g => [group_final g] | None => [] end
  | r :: rest =>
      match cur with
      | None => group_scan (Some (group_start r)) rest
      | Some g =>
          if String.eqb (g_city g) (city r)
          then group_scan (Some (group_step g r)) rest
          else group_final g :: group_scan (Some (group_start r)) rest
      end
  end.

(** The sorter key of GROUP BY city.  The engine gives the GROUP BY term
    the direction of the ORDER BY term beside it, here DESC, so the groups
    come out of the scan in descending order of city. *)
Definition city_desc_leb (a b : row) : bool := text_leb (city b) (city a).

(** ORDER BY avg_temp DESC *)
Definition avg_temp_desc_leb (a b : avg_row) : bool := Qle_bool (avg_temp b) (avg_temp a).

Definition query_avg (t : list row) : list avg_row :=
  sort_by avg_temp_desc_leb (group_scan None (sort_by city_desc_leb t)).

(** The arithmetic mean of section 4.2 of the specification, in its
    words: the sum of the values divided by their number. *)
Definition Qsum (l : list Q) : Q := fold_right Qplus 0 l.

Definition mean (l : list Q) : Q := Qsum l / inject_Z (Z.of_nat (List.length l)).

Definition rows_of_city (c : string) (t : list row) : list row :=
  filter (fun r => String.eqb (city r) c) t.

(** ** The window query [query_window] and the CTE query [query_cte]

    SELECT city, reading_date, temperature,
           RANK() OVER (PARTITION BY reading_date ORDER BY temperature DESC) AS temp_rank
    FROM climate_data ORDER BY reading_date, temp_rank *)

Record ranked_row : Type := mkRanked {
  r_city : string;
  r_reading_date : string;
  r_temperature : Q;
  temp_rank : Z
}.

(** The sorter key of the window: partition key first, then the window's
    ORDER BY temperature DESC. *)
Definition window_leb (a b : row) : bool :=
  lex_leb (text_compare (reading_date a) (reading_date b))
          (Qle_bool (temperature b) (temperature a)).

Definition same_partition (p r : row) : bool :=
  String.eqb (reading_date p) (reading_date r).

Definition is_peer (p r : row) : bool :=
  same_partition p r && Qeq_bool (temperature p) (temperature r).

(** RANK() over the sorted rows.  [nStep] counts the rows of the current
    partition seen so far; [nValue] is the rank handed to the current peer
    group, taken from [nStep] when a new peer group starts. *)
Fixpoint rank_scan (prev : option row) (nStep nValue : Z) (l : list row) : list ranked_row :=
  match l with
  | [] => []
  | r :: rest =>
      let same := match prev with Some p => same_partition p r | None => false end in
      let peer := match prev with Some p => is_peer p r | None => false end in
      let nStep' := if same then (nStep + 1)%Z else 1%Z in
      let nValue' := if peer then nValue else nStep' in
      mkRanked (city r) (reading_date r) (temperature r) nValue'
        :: rank_scan (Some r) nStep' nValue' rest
  end.

(** The rows of the window before the outer ORDER BY; the named
    intermediate result [ranked_temps] of the CTE query. *)
Definition ranked_temps (t : list row) : list ranked_row :=
  rank_scan None 0 0 (sort_by window_leb t).

(** ORDER BY reading_date, temp_rank *)
Definition date_rank_leb (a b : ranked_row) : bool :=
  lex_leb (text_compare (r_reading_date a) (r_reading_date b))
          (temp_rank a <=? temp_rank b)%Z.

(** ORDER BY reading_date *)
Definition date_leb (a b : ranked_row) : bool :=
  text_leb (r_reading_date a) (r_reading_date b).

Definition query_window (t : list row) : list ranked_row :=
  sort_by date_rank_leb (ranked_temps t).

(** WHERE temp_rank = 1 *)
Definition is_top (r : ranked_row) : bool := (temp_rank r =? 1)%Z.

(** WITH ranked_temps AS (...) SELECT * FROM ranked_temps
    WHERE temp_rank = 1 ORDER BY reading_date *)
Definition query_cte (t : list row) : list ranked_row :=
  sort_by date_leb (filter is_top (ranked_temps t)).

(** SELECT * FROM climate_data: the rows in rowid order. *)
Definition query_all (t : list row) : list row := t.

(** The rank of section 4.3 of the specification, in its words: one plus
    the number of records of the same date with a strictly greater
    temperature. *)
Definition hotter_same_date (r x : row) : bool :=
  String.eqb (reading_date x) (reading_date r)
  && negb (Qle_bool (temperature x) (temperature r)).

Definition count_rows (f : row -> bool) (t : list row) : Z :=
  Z.of_nat (List.length (filter f t)).

Definition rank_by_count (t : list row) (r : row) : Z :=
  (1 + count_rows (hotter_same_date r) t)%Z.

Definition ranked_by_count (t : list row) (r : row) : ranked_row :=
  mkRanked (city r) (reading_date r) (temperature r) (rank_by_count t r).

(** The top-per-partition filter of section 4.4 of the specification, in
    its words: the ranking report, its rows of rank 1 only, ordered by
    date. *)
Definition top_of_ranking (t : list row) : list ranked_row :=
  sort_by date_leb (filter is_top (query_window t)).

Definition rows_of_date (d : string) (df : list ranked_row) : list ranked_row :=
  filter (fun r => String.eqb (r_reading_date r) d) df.

(** ** The frames of the tabular library *)

(** [DataFrame.head()]: the first five rows. *)
Definition head {A : Type} (df : list A) : list A := firstn 5 df.

(** [df_all[["temperature", "humidity"]]] *)
Definition temperature_humidity (df : list row) : list (Q * Q) :=
  map (fun r => (temperature r, humidity r)) df.

Local Open Scope R_scope.

Definition Rsum (l : list R) : R := fold_right Rplus 0 l.

Definition Rmean (l : list R) : R := Rsum l / INR (List.length l).

(** Sum of the products of the deviations from the column means, over the
    rows of the frame. *)
Definition dev_products (mx my : R) (l : list (R * R)) : R :=
  Rsum (map (fun p => (fst p - mx) * (snd p - my)) l).

Definition ssqdm (x y : list R) : R :=
  dev_products (Rmean x) (Rmean y) (combine x y).

(** One entry of [DataFrame.corr()] (method "pearson"); [None] is NaN, the
    value of an entry whose divisor is zero. *)
Definition corr_entry (x y : list R) : option R :=
  let divisor := sqrt (ssqdm x x * ssqdm y y) in
  if Req_dec_T divisor 0 then None else Some (ssqdm x y / divisor).

Record corr_matrix : Type := mkCorr {
  temperature_temperature : option R;
  temperature_humidity_ : option R;
  humidity_temperature : option R;
  humidity_humidity : option R
}.

Definition column_temperature (df : list (Q * Q)) : list R := map (fun p => Q2R (fst p)) df.

Definition column_humidity (df : list (Q * Q)) : list R := map (fun p => Q2R (snd p)) df.

Definition corr (df : list (Q * Q)) : corr_matrix :=
  let t := column_temperature df in
  let h := column_humidity df in
  {| temperature_temperature := corr_entry t t;
     temperature_humidity_ := corr_entry t h;
     humidity_temperature := corr_entry h t;
     humidity_humidity := corr_entry h h |}.

(** The Pearson coefficient in the words of the specification: the sample
    covariance of the two series divided by the product of their sample
    standard deviations. *)
Definition covariance (x y : list R) : R := ssqdm x y / (INR (List.length x) - 1).

Definition std (x : list R) : R := sqrt (covariance x x).

Definition pearson (x y : list R) : R := covariance x y / (std x * std y).

Local Close Scope R_scope.

(** ** The database connection *)

Inductive exn : Type :=
| OperationalError (msg : string)
| IntegrityError (msg : string)
| ProgrammingError (msg : string)
| DatabaseError (cause : exn)
| MemoryError.

Inductive result (A : Type) : Type :=
| Ok (a : A)
| Raise (e : exn).
Arguments Ok {A} a.
Arguments Raise {A} e.

(** The stored table: its rows in rowid order and the largest rowid handed
    out so far (AUTOINCREMENT). *)
Record table : Type := mkTable { rows : list row; last_rowid : Z }.

(** A connection: whether it is closed, the table as the connection sees
    it, and, while a transaction is open, the table as it was when the
    transaction began. *)
Record connection : Type := mkConn {
  closed : bool;
  climate_data : option table;
  transaction : option (option table)
}.

Definition in_transaction (c : connection) : bool :=
  match transaction c with
  | Some _ => true
  | None => false
  end.

(** [sqlite3.connect(":memory:")]: an open connection to an empty database. *)
Definition memory_db : connection :=
  {| closed := false; climate_data := None; transaction := None |}.

Definition closed_msg : string := "Cannot operate on a closed database.".
Definition no_table_msg : string := "no such table: climate_data".
Definition full_msg : string := "database or disk is full".
Definition not_null_msg (column : string) : string :=
  "NOT NULL constraint failed: climate_data." ++ column.

(** The largest rowid of the engine: 2^63 - 1. *)
Definition max_rowid : Z := 9223372036854775807.

(** The largest rowid among the stored rows, when there is a row. *)
Definition largest_rowid (rs : list row) : option Z :=
  match rs with
  | [] => None
  | r :: rs' => Some (fold_right (fun x m => Z.max (id x) m) (id r) rs')
  end.

(** The rowid AUTOINCREMENT gives the next row: one more than the larger
    of the largest rowid in the table and the counter; none is left once
    either of them is the largest rowid of the engine. *)
Definition new_rowid (t : table) : option Z :=
  match largest_rowid (rows t) with
  | None =>
      if (max_rowid <=? last_rowid t)%Z then None
      else Some (Z.max 1 (last_rowid t + 1))
  | Some k =>
      if ((max_rowid <=? last_rowid t) || (max_rowid <=? k))%Z then None
      else Some (Z.max (k + 1) (last_rowid t + 1))
  end.

(** CREATE TABLE IF NOT EXISTS climate_data (...) *)
Definition create_table_if_not_exists (c : connection) : result unit * connection :=
  if closed c then (Raise (ProgrammingError closed_msg), c)
  else match climate_data c with
       | Some _ => (Ok tt, c)
       | None =>
           (Ok tt, {| closed := closed c;
                      climate_data := Some {| rows := []; last_rowid := 0 |};
                      transaction := transaction c |})
       end.

(** INSERT INTO climate_data (city, reading_date, temperature, humidity)
    VALUES (?, ?, ?, ?) for one parameter tuple: the rowid is taken first,
    then the NOT NULL constraints are checked in column order. *)
Definition insert_row (t : table) (p : params) : result table :=
  match new_rowid t with
  | None => Raise (OperationalError full_msg)
  | Some i =>
      match p with
      | (Some c, Some d, Some tp, Some h) =>
          Ok {| rows := rows t ++ [mkRow i c d tp h]; last_rowid := i |}
      | (None, _, _, _) => Raise (IntegrityError (not_null_msg "city"))
      | (_, None, _, _) => Raise (IntegrityError (not_null_msg "reading_date"))
      | (_, _, None, _) => Raise (IntegrityError (not_null_msg "temperature"))
      | (_, _, _, None) => Raise (IntegrityError (not_null_msg "humidity"))
      end
  end.

(** The loop of [executemany]: the rows inserted before a failing tuple
    stay in the open transaction. *)
Fixpoint insert_rows (t : table) (ps : list params) : result unit * table :=
  match ps with
  | [] => (Ok tt, t)
  | p :: ps' =>
      match insert_row t p with
      | Ok t' => insert_rows t' ps'
      | Raise e => (Raise e, t)
      end
  end.

(** [executemany] of the INSERT: a transaction is begun before the first
    tuple unless one is open. *)
Definition executemany_insert (ps : list params) (c : connection) : result unit * connection :=
  if closed c then (Raise (ProgrammingError closed_msg), c)
  else match climate_data c with
       | None => (Raise (OperationalError no_table_msg), c)
       | Some t =>
           let '(res, t') := insert_rows t ps in
           (res, {| closed := false;
                    climate_data := Some t';
                    transaction := Some match transaction c with
                                        | Some before => before
                                        | None => Some t
                                        end |})
       end.

Definition commit_db (c : connection) : result unit * connection :=
  if closed c then (Raise (ProgrammingError closed_msg), c)
  else (Ok tt, {| closed := false; climate_data := climate_data c; transaction := None |}).

(** [Connection.rollback()]: the table goes back to what it was when the
    open transaction began; nothing happens without one. *)
Definition rollback_db (c : connection) : connection :=
  match transaction c with
  | Some before => {| closed := closed c; climate_data := before; transaction := None |}
  | None => c
  end.

(** A SELECT on [climate_data] run by [pd.read_sql_query].  A query that
    succeeds reads the rows and changes nothing.  On a closed connection
    no cursor is made and ProgrammingError is raised.  When the engine
    refuses the statement, the connection is rolled back and DatabaseError
    is raised from the engine's error. *)
Definition select_from {A : Type} (q : list row -> A) (c : connection) : result A * connection :=
  if closed c then (Raise (ProgrammingError closed_msg), c)
  else match climate_data c with
       | None => (Raise (DatabaseError (OperationalError no_table_msg)), rollback_db c)
       | Some t => (Ok (q (rows t)), c)
       end.

Definition close_db (c : connection) : connection :=
  {| closed := true; climate_data := None; transaction := None |}.

(** ** Standard output *)

Inductive frame : Type :=
| DfAvg (df : list avg_row)
| DfRanked (df : list ranked_row)
| DfAll (df : list row)
| DfCorr (m : corr_matrix).

Inductive arg : Type :=
| AStr (s : string)
| AFrame (f : frame).

(** One call of [print]: its arguments, written separated by a space and
    ended by a newline. *)
Definition print_call : Type := list arg.

Definition newline : string := String (ascii_of_nat 10) EmptyString.

(** ** The run *)

Record world : Type := mkWorld {
  db : connection;
  stdout : list print_call;
  ncalls : nat
}.

Definition M (A : Type) : Type := world -> result A * world.

Definition ret {A : Type} (a : A) : M A := fun w => (Ok a, w).

(** Sequencing: an exception of the first part skips the rest. *)
Definition bind {A B : Type} (m : M A) (k : A -> M B) : M B :=
  fun w =>
    match m w with
    | (Ok a, w') => k a w'
    | (Raise e, w') => (Raise e, w')
    end.

Notation "x <- m ;; k" := (bind m (fun x => k))
  (at level 61, m at next level, right associativity).
Notation "m ;; k" := (bind m (fun _ => k))
  (at level 61, right associativity).

Definition print (args : print_call) : M unit :=
  fun w => (Ok tt, {| db := db w; stdout := stdout w ++ [args]; ncalls := ncalls w |}).

Definition sqlite3_connect : M unit :=
  fun w => (Ok tt, {| db := memory_db; stdout := stdout w; ncalls := ncalls w |}).

Definition conn_close : M unit :=
  fun w => (Ok tt, {| db := close_db (db w); stdout := stdout w; ncalls := ncalls w |}).

Section Run.

(** Which calls into the engine fail for want of resources: [faulty n]
    holds when the [n]-th call (counted from 0) raises instead of
    running.  The script itself has no other source of failure. *)
Variable faulty : nat -> bool.

Definition engine {A : Type} (f : connection -> result A * connection) : M A :=
  fun w =>
    let n := ncalls w in
    if faulty n
    then (Raise MemoryError, {| db := db w; stdout := stdout w; ncalls := S n |})
    else let '(res, c) := f (db w) in
         (res, {| db := c; stdout := stdout w; ncalls := S n |}).

Definition read_sql_query {A : Type} (q : list row -> A) : M A :=
  engine (select_from q).

Definition create_and_populate_db : M unit :=
  engine create_table_if_not_exists ;;
  engine (executemany_insert records) ;;
  engine commit_db.

Definition run_basic_analytics : M unit :=
  df_avg <- read_sql_query query_avg ;;
  print [AStr "=== Average Temperature & Humidity by City ==="] ;;
  print [AFrame (DfAvg df_avg); AStr newline].

Definition run_advanced_analytics : M unit :=
  df_window <- read_sql_query query_window ;;
  print [AStr "=== Window Function: Temperature Rank per Date ==="] ;;
  print [AFrame (DfRanked df_window); AStr newline] ;;
  df_cte <- read_sql_query query_cte ;;
  print [AStr "=== CTE: Hottest City per Date ==="] ;;
  print [AFrame (DfRanked df_cte); AStr newline].

Definition main : M unit :=
  sqlite3_connect ;;
  create_and_populate_db ;;
  run_basic_analytics ;;
  run_advanced_analytics ;;
  df_all <- read_sql_query query_all ;;
  print [AStr "=== Full climate_data Table in Pandas ==="] ;;
  print [AFrame (DfAll (head df_all)); AStr newline] ;;
  let corr_m := corr (temperature_humidity df_all) in
  print [AStr "=== Correlation Matrix between Temperature & Humidity ==="] ;;
  print [AFrame (DfCorr corr_m)] ;;
  conn_close.

End Run.

(** A run in which no engine call fails. *)
Definition no_fault : nat -> bool := fun _ => false.

(** The process at start: nothing printed, no call made. *)
Definition start : world := {| db := memory_db; stdout := []; ncalls := 0 |}.

(** The rows a connection holds in [climate_data]. *)
Definition table_rows (c : connection) : list row :=
  match climate_data c with
  | Some t => rows t
  | None => []
  end.

(** The script up to the end of the load, on a fresh connection. *)
Definition load : M unit := sqlite3_connect ;; create_and_populate_db no_fault.

(** The table as the script loads it. *)
Definition loaded_rows : list row := table_rows (db (snd (load start))).

(** The four data columns of a stored record, as a parameter tuple. *)
Definition values (r : row) : params :=
  (Some (city r), Some (reading_date r), Some (temperature r), Some (humidity r)).

(** ** Reading the printed report *)

(** A header line: a [print] of one string. *)
Definition is_header (p : print_call) : bool :=
  match p with
  | [AStr _] => true
  | _ => false
  end.

(** The frame a [print] shows, if it shows one. *)
Definition shown_frame (p : print_call) : option frame :=
  match p with
  | AFrame f :: _ => Some f
  | _ => None
  end.

(** A [print] whose last argument is a newline leaves a blank line behind
    what it shows. *)
Definition leaves_blank_line (p : print_call) : bool :=
  match p with
  | [AFrame _; AStr s] => String.eqb s newline
  | _ => false
  end.

Definition headers (out : list print_call) : list print_call := filter is_header out.

Fixpoint frames (out : list print_call) : list frame :=
  match out with
  | [] => []
  | p :: out' =>
      match shown_frame p with
      | Some f => f :: frames out'
      | None => frames out'
      end
  end.

Definition frame_prints (out : list print_call) : list print_call :=
  filter (fun p => match shown_frame p with Some _ => true | None => false end) out.

(** The first engine call among the [n] calls from the [k]-th on that
    fails, if any. *)
Fixpoint first_fault (faulty : nat -> bool) (k n : nat) : option nat :=
  match n with
  | O => None
  | S n' => if faulty k then Some k else first_fault faulty (S k) n'
  end.

(** ** Batches and results, for the properties of the loader *)

Definition is_ok {A : Type} (r : result A) : bool :=
  match r with
  | Ok _ => true
  | Raise _ => false
  end.

(** A parameter tuple without NULL. *)
Definition present (p : params) : bool :=
  match p with
  | (Some _, Some _, Some _, Some _) => true
  | _ => false
  end.

(** The rows a batch stores when the largest rowid so far is [i]: one row
    per tuple, numbered from [i + 1], up to the first tuple with a NULL. *)
Fixpoint rows_of_params (i : Z) (ps : list params) : list row :=
  match ps with
  | (Some c, Some d, Some tp, Some h) :: ps' =>
      mkRow (i + 1) c d tp h :: rows_of_params (i + 1) ps'
  | _ => []
  end.

(** The tuples of a batch up to the first one with a NULL. *)
Fixpoint stored_prefix (ps : list params) : list params :=
  match ps with
  | p :: ps' => if present p then p :: stored_prefix ps' else []
  | [] => []
  end.

(** The rowids of a table are positive, strictly increasing in storage
    order and bounded by the AUTOINCREMENT counter. *)
Definition rowids_ok (t : table) : Prop :=
  (0 <= last_rowid t)%Z
  /\ StronglySorted Z.lt (map id (rows t))
  /\ Forall (fun r => (0 < id r <= last_rowid t)%Z) (rows t).

(** The loader called [n] times in a row on one connection. *)
Fixpoint load_times (n : nat) : M unit :=
  match n with
  | O => ret tt
  | S n' => create_and_populate_db no_fault ;; load_times n'
  end.

Definition has_table (c : connection) : bool :=
  match climate_data c with
  | Some _ => true
  | None => false
  end.

(** A connection a SELECT on [climate_data] can be run on: open, with the
    table. *)
Definition can_read (c : connection) : bool := negb (closed c) && has_table c.

(** What a SELECT on [climate_data] raises on a connection it cannot be run
    on. *)
Definition read_error (c : connection) : exn :=
  if closed c then ProgrammingError closed_msg
  else DatabaseError (OperationalError no_table_msg).

(** The column the engine names when a tuple breaks a NOT NULL constraint:
    the first NULL one in column order. *)
Definition null_column (p : params) : option string :=
  match p with
  | (Some _, Some _, Some _, Some _) => None
  | (None, _, _, _) => Some "city"
  | (_, None, _, _) => Some "reading_date"
  | (_, _, None, _) => Some "temperature"
  | (_, _, _, None) => Some "humidity"
  end.

(** The column named for the first tuple of a batch that holds a NULL. *)
Fixpoint first_null_column (ps : list params) : option string :=
  match ps with
  | [] => None
  | p :: ps' =>
      match null_column p with
      | Some col => Some col
      | None => first_null_column ps'
      end
  end.

(** What a batch insert returns when there are rowids for all its
    tuples. *)
Definition batch_result (ps : list params) : result unit :=
  match first_null_column ps with
  | None => Ok tt
  | Some col => Raise (IntegrityError (not_null_msg col))
  end.

(** The number of [print] calls of [main] that are out when the engine
    call [k] is the first to fail: the sections of the queries run before
    it, two calls each. *)
Definition printed_before_fault (k : option nat) : nat :=
  match k with
  | None => 10
  | Some k => 2 * (k - 3)
  end.

(** No two records of the table share both the reading date and the
    temperature. *)
Fixpoint no_ties (t : list row) : bool :=
  match t with
  | [] => true
  | x :: t' => forallb (fun y => negb (is_peer x y)) t' && no_ties t'
  end.

(** What the scan of GROUP BY holds in its accumulators after the rows
    [grp] of the current group: their city, their number and the sums of
    their temperatures and humidities. *)
Definition group_inv (grp : list row) (g : group_acc) : Prop :=
  Forall (fun r => city r = g_city g) grp
  /\ rSum (g_temp g) == Qsum (map temperature grp)
  /\ cnt (g_temp g) = Z.of_nat (List.length grp)
  /\ rSum (g_hum g) == Qsum (map humidity grp)
  /\ cnt (g_hum g) = Z.of_nat (List.length grp).

(** The means of the records of city [a_city a] in the table [t], in the
    words of the specification, against the row [a] of the report. *)
Definition row_holds_means (t : list row) (a : avg_row) : Prop :=
  avg_temp a == mean (map temperature (rows_of_city (a_city a) t))
  /\ avg_humidity a == mean (map humidity (rows_of_city (a_city a) t)).

(** * Properties *)

(** ** The sorter *)

Section SortFacts.

Context {A : Type} (leb : A -> A -> bool).

Let le (x y : A) : Prop := leb x y = true.

Lemma insert_by_perm (x : A) (l : list A) :
  Permutation (insert_by leb x l) (x :: l).
Proof.
  induction l as [|y l IH]; simpl.
  - apply Permutation_refl.
  - destruct (leb x y).
    + apply Permutation_refl.
    + etransitivity; [apply perm_skip, IH | apply perm_swap].
Qed.

Lemma sort_by_perm (l : list A) : Permutation (sort_by leb l) l.
Proof.
  induction l as [|x l IH]; simpl.
  - constructor.
  - etransitivity; [apply insert_by_perm | now apply perm_skip].
Qed.

Lemma sort_by_of_sorted (l : list A) : Sorted le l -> sort_by leb l = l.
Proof.
  induction 1 as [|x l Hs IH Hhd]; simpl; [reflexivity|].
  rewrite IH. destruct Hhd as [|y l' Hxy]; simpl; [reflexivity|].
  unfold le in Hxy. now rewrite Hxy.
Qed.

Hypothesis leb_total : forall x y, leb x y = true \/ leb y x = true.
Hypothesis leb_trans : forall x y z, leb x y = true -> leb y z = true -> leb x z = true.

Lemma insert_by_sorted (x : A) (l : list A) :
  StronglySorted le l -> StronglySorted le (insert_by leb x l).
Proof.
  induction 1 as [|y l Hs IH Hall]; simpl.
  - repeat constructor.
  - destruct (leb x y) eqn:Hxy.
    + constructor; [now constructor|].
      constructor; [exact Hxy|].
      eapply Forall_impl; [|exact Hall].
      intros z Hyz. unfold le in *. eauto.
    + constructor; [exact IH|].
      assert (Hyx : le y x) by (destruct (leb_total x y); [congruence | assumption]).
      eapply Permutation_Forall; [symmetry; apply insert_by_perm|].
      now constructor.
Qed.

Lemma sort_by_sorted (l : list A) : StronglySorted le (sort_by leb l).
Proof.
  induction l as [|x l IH]; simpl; [constructor | now apply insert_by_sorted].
Qed.

End SortFacts.

Lemma StronglySorted_middle {A : Type} (R : A -> A -> Prop) (l1 l2 : list A) (x : A) :
  StronglySorted R (l1 ++ x :: l2) ->
  Forall (fun y => R y x) l1 /\ Forall (R x) l2.
Proof.
  induction l1 as [|a l1 IH]; simpl; intros Hs.
  - apply StronglySorted_inv in Hs. split; [constructor | tauto].
  - apply StronglySorted_inv in Hs. destruct Hs as [Hs Ha].
    destruct (IH Hs) as [H1 H2]. split; [|exact H2].
    constructor; [|exact H1].
    rewrite Forall_forall in Ha. apply Ha, in_elt.
Qed.

(** ** Text and number comparisons *)

Lemma text_lt_irrefl (a : string) : ~ String_as_OT.lt a a.
Proof. exact (StrictOrder_Irreflexive (R := String_as_OT.lt) a). Qed.

Lemma text_lt_trans (a b c : string) :
  String_as_OT.lt a b -> String_as_OT.lt b c -> String_as_OT.lt a c.
Proof. exact (StrictOrder_Transitive (R := String_as_OT.lt) a b c). Qed.

Lemma text_compare_eq (a b : string) : text_compare a b = Eq <-> a = b.
Proof.
  unfold text_compare.
  destruct (String_as_OT.compare_spec a b) as [H|H|H]; unfold String_as_OT.eq in *.
  - tauto.
  - split; [discriminate|]. intros ->. now apply text_lt_irrefl in H.
  - split; [discriminate|]. intros ->. now apply text_lt_irrefl in H.
Qed.

Lemma text_compare_refl (a : string) : text_compare a a = Eq.
Proof. now apply text_compare_eq. Qed.

Lemma text_compare_gt (a b : string) : text_compare a b = Gt <-> text_compare b a = Lt.
Proof.
  unfold text_compare.
  destruct (String_as_OT.compare_spec a b) as [H|H|H],
           (String_as_OT.compare_spec b a) as [H'|H'|H'];
    unfold String_as_OT.eq in *; subst;
    try (split; congruence);
    try (now apply text_lt_irrefl in H);
    try (now apply text_lt_irrefl in H');
    exfalso; exact (text_lt_irrefl _ (text_lt_trans _ _ _ H H')).
Qed.

Lemma text_compare_lt_trans (a b c : string) :
  text_compare a b = Lt -> text_compare b c = Lt -> text_compare a c = Lt.
Proof.
  unfold text_compare. intros H1 H2.
  exact (StrictOrder_Transitive (R := String_as_OT.lt) _ _ _ H1 H2).
Qed.

Lemma text_compare_lt_neq (a b : string) : text_compare a b = Lt -> a <> b.
Proof. intros H E. apply text_compare_eq in E. congruence. Qed.

Section LexOrder.

Context {A : Type} (key : A -> string) (tie : A -> A -> bool).

Let leb (x y : A) : bool := lex_leb (text_compare (key x) (key y)) (tie x y).

Hypothesis tie_total : forall x y, tie x y = true \/ tie y x = true.
Hypothesis tie_trans : forall x y z, tie x y = true -> tie y z = true -> tie x z = true.

Lemma lex_leb_total (x y : A) : leb x y = true \/ leb y x = true.
Proof.
  unfold leb. destruct (text_compare (key x) (key y)) eqn:E; simpl.
  - apply text_compare_eq in E. rewrite E, text_compare_refl. simpl. apply tie_total.
  - now left.
  - apply text_compare_gt in E. rewrite E. now right.
Qed.

Lemma lex_leb_trans (x y z : A) : leb x y = true -> leb y z = true -> leb x z = true.
Proof.
  unfold leb.
  destruct (text_compare (key x) (key y)) eqn:Exy; simpl; try discriminate;
    destruct (text_compare (key y) (key z)) eqn:Eyz; simpl; try discriminate;
    intros Hxy Hyz.
  - apply text_compare_eq in Exy, Eyz. rewrite Exy, Eyz, text_compare_refl. simpl. eauto.
  - apply text_compare_eq in Exy. rewrite Exy, Eyz. reflexivity.
  - apply text_compare_eq in Eyz. rewrite <- Eyz, Exy. reflexivity.
  - rewrite (text_compare_lt_trans _ _ _ Exy Eyz). reflexivity.
Qed.

End LexOrder.

Lemma Qle_bool_total (x y : Q) : Qle_bool x y = true \/ Qle_bool y x = true.
Proof.
  rewrite !Qle_bool_iff. destruct (Qlt_le_dec x y) as [H|H]; [left; now apply Qlt_le_weak | now right].
Qed.

Lemma Qle_bool_trans (x y z : Q) :
  Qle_bool x y = true -> Qle_bool y z = true -> Qle_bool x z = true.
Proof. rewrite !Qle_bool_iff. apply Qle_trans. Qed.

Lemma Qle_bool_refl (x : Q) : Qle_bool x x = true.
Proof. apply Qle_bool_iff, Qle_refl. Qed.

Lemma window_leb_total (x y : row) : window_leb x y = true \/ window_leb y x = true.
Proof.
  apply (lex_leb_total reading_date (fun a b => Qle_bool (temperature b) (temperature a))).
  intros a b. apply Qle_bool_total.
Qed.

Lemma window_leb_trans (x y z : row) :
  window_leb x y = true -> window_leb y z = true -> window_leb x z = true.
Proof.
  apply (lex_leb_trans reading_date (fun a b => Qle_bool (temperature b) (temperature a))).
  intros a b c H1 H2. exact (Qle_bool_trans _ _ _ H2 H1).
Qed.

Lemma window_leb_refl (x : row) : window_leb x x = true.
Proof. unfold window_leb. rewrite text_compare_refl. apply Qle_bool_refl. Qed.

Lemma date_rank_leb_total (x y : ranked_row) :
  date_rank_leb x y = true \/ date_rank_leb y x = true.
Proof.
  apply (lex_leb_total r_reading_date (fun a b => (temp_rank a <=? temp_rank b)%Z)).
  intros a b. rewrite !Z.leb_le. lia.
Qed.

Lemma date_rank_leb_trans (x y z : ranked_row) :
  date_rank_leb x y = true -> date_rank_leb y z = true -> date_rank_leb x z = true.
Proof.
  apply (lex_leb_trans r_reading_date (fun a b => (temp_rank a <=? temp_rank b)%Z)).
  intros a b c. rewrite !Z.leb_le. lia.
Qed.

Lemma date_leb_total (x y : ranked_row) : date_leb x y = true \/ date_leb y x = true.
Proof. apply (lex_leb_total r_reading_date (fun _ _ => true)). now left. Qed.

Lemma date_leb_trans (x y z : ranked_row) :
  date_leb x y = true -> date_leb y z = true -> date_leb x z = true.
Proof. apply (lex_leb_trans r_reading_date (fun _ _ => true)). reflexivity. Qed.

(** ** RANK() against the count of hotter rows *)

Lemma count_rows_app (f : row -> bool) (l1 l2 : list row) :
  count_rows f (l1 ++ l2) = (count_rows f l1 + count_rows f l2)%Z.
Proof. unfold count_rows. rewrite filter_app, length_app. lia. Qed.

Lemma count_rows_single (f : row -> bool) (r : row) :
  count_rows f [r] = if f r then 1%Z else 0%Z.
Proof. unfold count_rows. simpl. now destruct (f r). Qed.

Lemma count_rows_ext_in (f g : row -> bool) (l : list row) :
  (forall x, In x l -> f x = g x) -> count_rows f l = count_rows g l.
Proof. intros H. unfold count_rows. now rewrite (filter_ext_in f g l H). Qed.

Lemma count_rows_none (f : row -> bool) (l : list row) :
  (forall x, In x l -> f x = false) -> count_rows f l = 0%Z.
Proof.
  intros H. rewrite (count_rows_ext_in f (fun _ => false) l H).
  unfold count_rows. clear H. induction l; simpl; auto.
Qed.

Lemma count_rows_perm (f : row -> bool) (l1 l2 : list row) :
  Permutation l1 l2 -> count_rows f l1 = count_rows f l2.
Proof.
  intros H. unfold count_rows. f_equal. apply Permutation_length.
  induction H; simpl.
  - constructor.
  - destruct (f x); auto.
  - destruct (f x), (f y); auto using perm_swap.
  - etransitivity; eauto.
Qed.

Lemma count_rows_le (f g : row -> bool) (l : list row) :
  (forall x, In x l -> f x = true -> g x = true) ->
  (count_rows f l <= count_rows g l)%Z.
Proof.
  unfold count_rows. induction l as [|a l IH]; simpl; intros H; [lia|].
  assert (IH' := IH (fun x Hx => H x (or_intror Hx))).
  pose proof (H a (or_introl eq_refl)) as Ha.
  destruct (f a), (g a); simpl; try lia.
Qed.

(** The window order read off its two keys. *)
Lemma window_leb_cases (x y : row) :
  window_leb x y = true ->
  text_compare (reading_date x) (reading_date y) = Lt
  \/ (reading_date x = reading_date y /\ Qle_bool (temperature y) (temperature x) = true).
Proof.
  unfold window_leb.
  destruct (text_compare (reading_date x) (reading_date y)) eqn:E; simpl; intros H.
  - right. split; [now apply text_compare_eq | exact H].
  - now left.
  - discriminate.
Qed.

Lemma same_partition_true (p r : row) :
  same_partition p r = true <-> reading_date p = reading_date r.
Proof. apply String.eqb_eq. Qed.

Lemma same_partition_false (p r : row) :
  same_partition p r = false <-> reading_date p <> reading_date r.
Proof. apply String.eqb_neq. Qed.

Lemma hotter_after (r y : row) : window_leb r y = true -> hotter_same_date r y = false.
Proof.
  intros H. unfold hotter_same_date.
  destruct (window_leb_cases _ _ H) as [Hlt | [_ Hle]].
  - apply text_compare_lt_neq in Hlt.
    replace (String.eqb (reading_date y) (reading_date r)) with false; [reflexivity|].
    symmetry. apply String.eqb_neq. congruence.
  - rewrite Hle. simpl. apply andb_false_r.
Qed.

Lemma hotter_self (r : row) : hotter_same_date r r = false.
Proof. apply hotter_after, window_leb_refl. Qed.

(** A row of an earlier partition is not in the partition of [r]. *)
Lemma earlier_partition (x p r : row) :
  window_leb x p = true -> window_leb p r = true -> same_partition p r = false ->
  same_partition x r = false.
Proof.
  intros Hxp Hpr Hne. apply same_partition_false in Hne. apply same_partition_false.
  destruct (window_leb_cases _ _ Hpr) as [Hlt | [He _]]; [|contradiction].
  destruct (window_leb_cases _ _ Hxp) as [Hlt' | [He' _]].
  - apply text_compare_lt_neq. eapply text_compare_lt_trans; eassumption.
  - rewrite He'. now apply text_compare_lt_neq.
Qed.

Lemma hotter_not_same (r x : row) : same_partition x r = false -> hotter_same_date r x = false.
Proof. unfold hotter_same_date, same_partition. now intros ->. Qed.

Lemma is_peer_true (p r : row) :
  is_peer p r = true <-> reading_date p = reading_date r /\ temperature p == temperature r.
Proof.
  unfold is_peer. rewrite andb_true_iff, same_partition_true, Qeq_bool_iff. reflexivity.
Qed.

Lemma hotter_peer (p r x : row) :
  is_peer p r = true -> hotter_same_date r x = hotter_same_date p x.
Proof.
  intros H. apply is_peer_true in H. destruct H as [Hd Ht].
  unfold hotter_same_date. rewrite Hd. f_equal. f_equal.
  now rewrite Ht.
Qed.

(** Within one partition, the rows before a strictly colder row are all
    hotter than it. *)
Lemma hotter_before (p r x : row) :
  same_partition p r = true -> is_peer p r = false ->
  window_leb p r = true -> window_leb x p = true ->
  hotter_same_date r x = same_partition x p.
Proof.
  intros Hsame Hpeer Hpr Hxp.
  assert (Hd : reading_date p = reading_date r) by now apply same_partition_true.
  unfold is_peer in Hpeer. rewrite Hsame in Hpeer. simpl in Hpeer.
  destruct (window_leb_cases _ _ Hpr) as [Hlt | [_ Hrp]];
    [apply text_compare_lt_neq in Hlt; contradiction|].
  unfold hotter_same_date, same_partition. rewrite <- Hd.
  destruct (window_leb_cases _ _ Hxp) as [Hlt | [Hxd Hpx]].
  - apply text_compare_lt_neq in Hlt. apply String.eqb_neq in Hlt. now rewrite Hlt.
  - rewrite Hxd, String.eqb_refl. simpl.
    apply negb_true_iff. apply not_true_iff_false. intros Hxr.
    apply Qle_bool_iff in Hxr, Hrp, Hpx.
    assert (E : temperature p == temperature r) by (apply Qle_antisym; [eapply Qle_trans; eassumption | assumption]).
    apply Qeq_bool_iff in E. congruence.
Qed.

(** What the scan knows after the rows [pre]: the last row [p] is a
    maximum of [pre] in the window order, [nStep] is the number of rows of
    its partition and [nValue] its rank by count. *)
Definition scan_inv (pre : list row) (prev : option row) (nStep nValue : Z) : Prop :=
  match prev with
  | None => pre = []
  | Some p =>
      In p pre
      /\ Forall (fun x => window_leb x p = true) pre
      /\ nStep = count_rows (fun x => same_partition x p) pre
      /\ nValue = (1 + count_rows (hotter_same_date p) pre)%Z
  end.

Lemma rank_step (pre : list row) (prev : option row) (nStep nValue : Z) (r : row) :
  scan_inv pre prev nStep nValue ->
  Forall (fun x => window_leb x r = true) pre ->
  let same := match prev with Some p => same_partition p r | None => false end in
  let peer := match prev with Some p => is_peer p r | None => false end in
  let nStep' := if same then (nStep + 1)%Z else 1%Z in
  let nValue' := if peer then nValue else nStep' in
  nStep' = (1 + count_rows (fun x => same_partition x r) pre)%Z
  /\ nValue' = (1 + count_rows (hotter_same_date r) pre)%Z.
Proof.
  intros Hinv Hpre. destruct prev as [p|]; unfold scan_inv in Hinv.
  - destruct Hinv as (Hin & Hmax & HnS & HnV).
    rewrite Forall_forall in Hmax, Hpre.
    assert (Hpr : window_leb p r = true) by auto.
    cbv zeta.
    destruct (same_partition p r) eqn:Hsame.
    + assert (Hcount : count_rows (fun x => same_partition x r) pre
                       = count_rows (fun x => same_partition x p) pre).
      { apply count_rows_ext_in. intros x _. unfold same_partition.
        apply same_partition_true in Hsame. now rewrite Hsame. }
      split; [lia|].
      destruct (is_peer p r) eqn:Hpeer.
      * rewrite HnV. f_equal. apply count_rows_ext_in. intros x _.
        symmetry. now apply hotter_peer.
      * rewrite HnS.
        replace (count_rows (hotter_same_date r) pre)
          with (count_rows (fun x => same_partition x p) pre); [lia|].
        apply count_rows_ext_in. intros x Hx. symmetry.
        apply hotter_before; auto.
    + assert (Hnone : forall x, In x pre -> same_partition x r = false).
      { intros x Hx. eapply earlier_partition; eauto. }
      assert (Hpeer : is_peer p r = false) by (unfold is_peer; now rewrite Hsame).
      rewrite Hpeer.
      rewrite (count_rows_none _ pre Hnone).
      rewrite (count_rows_none (hotter_same_date r) pre);
        [split; reflexivity|].
      intros x Hx. apply hotter_not_same. auto.
  - subst pre. cbv zeta. split; reflexivity.
Qed.

Lemma rank_scan_spec (rest : list row) :
  forall (pre : list row) (prev : option row) (nStep nValue : Z),
    StronglySorted (fun x y => window_leb x y = true) (pre ++ rest) ->
    scan_inv pre prev nStep nValue ->
    rank_scan prev nStep nValue rest = map (ranked_by_count (pre ++ rest)) rest.
Proof.
  induction rest as [|r rest IH]; intros pre prev nStep nValue Hs Hinv; [reflexivity|].
  destruct (StronglySorted_middle _ _ _ _ Hs) as [Hbefore Hafter].
  destruct (rank_step pre prev nStep nValue r Hinv Hbefore) as [HnS HnV].
  cbn zeta in HnS, HnV.
  assert (Hrank : rank_by_count (pre ++ r :: rest) r
                  = (1 + count_rows (hotter_same_date r) pre)%Z).
  { unfold rank_by_count. rewrite count_rows_app.
    rewrite (count_rows_none (hotter_same_date r) (r :: rest)); [lia|].
    rewrite Forall_forall in Hafter.
    intros x [<- | Hx]; [apply hotter_self | apply hotter_after; auto]. }
  cbn [rank_scan map]. f_equal.
  - unfold ranked_by_count. f_equal. rewrite Hrank. exact HnV.
  - replace (pre ++ r :: rest)%list with ((pre ++ [r]) ++ rest)%list
      by (rewrite <- app_assoc; reflexivity).
    apply IH.
    + rewrite <- app_assoc. exact Hs.
    + unfold scan_inv. repeat split.
      * apply in_or_app. right. now left.
      * apply Forall_app. split; [exact Hbefore|].
        constructor; [apply window_leb_refl | constructor].
      * rewrite HnS, count_rows_app, count_rows_single.
        replace (same_partition r r) with true; [lia|].
        symmetry. now apply same_partition_true.
      * rewrite HnV, count_rows_app, count_rows_single, hotter_self. lia.
Qed.

Lemma ranked_by_count_perm (t t' : list row) (r : row) :
  Permutation t t' -> ranked_by_count t r = ranked_by_count t' r.
Proof.
  intros H. unfold ranked_by_count, rank_by_count.
  now rewrite (count_rows_perm _ _ _ H).
Qed.

(** The CTE's intermediate result: the rows in window order, each with
    its rank by count. *)
Lemma ranked_temps_spec (t : list row) :
  ranked_temps t = map (ranked_by_count t) (sort_by window_leb t).
Proof.
  unfold ranked_temps.
  rewrite (rank_scan_spec (sort_by window_leb t) [] None 0 0).
  - apply map_ext. intros r. apply ranked_by_count_perm. simpl. apply sort_by_perm.
  - simpl. apply sort_by_sorted; [apply window_leb_total | apply window_leb_trans].
  - reflexivity.
Qed.

Lemma hotter_mono (a b x : row) :
  reading_date a = reading_date b ->
  Qle_bool (temperature b) (temperature a) = true ->
  hotter_same_date a x = true -> hotter_same_date b x = true.
Proof.
  unfold hotter_same_date. intros Hd Hba. rewrite Hd.
  rewrite !andb_true_iff, !negb_true_iff. intros [He Hx]. split; [exact He|].
  apply not_true_iff_false. intros Hxb. apply not_true_iff_false in Hx. apply Hx.
  eapply Qle_bool_trans; eassumption.
Qed.

Lemma ranked_by_count_mono (t : list row) (a b : row) :
  window_leb a b = true ->
  date_rank_leb (ranked_by_count t a) (ranked_by_count t b) = true.
Proof.
  intros H. unfold date_rank_leb, ranked_by_count; simpl.
  destruct (window_leb_cases _ _ H) as [Hlt | [Hd Hle]].
  - now rewrite Hlt.
  - rewrite Hd, text_compare_refl. simpl. apply Z.leb_le.
    unfold rank_by_count. apply Zplus_le_compat_l.
    apply count_rows_le. intros x _. now apply hotter_mono.
Qed.

Lemma StronglySorted_map {A B : Type} (f : A -> B) (R : A -> A -> Prop) (S : B -> B -> Prop)
      (l : list A) :
  (forall x y, R x y -> S (f x) (f y)) ->
  StronglySorted R l -> StronglySorted S (map f l).
Proof.
  intros Hf. induction 1 as [|a l Hs IH Hall]; simpl; constructor; auto.
  apply Forall_map. eapply Forall_impl; [|exact Hall]. auto.
Qed.

Lemma ranked_temps_sorted (t : list row) :
  StronglySorted (fun a b => date_rank_leb a b = true) (ranked_temps t).
Proof.
  rewrite ranked_temps_spec.
  apply StronglySorted_map with (R := fun x y => window_leb x y = true).
  - intros x y. apply ranked_by_count_mono.
  - apply sort_by_sorted; [apply window_leb_total | apply window_leb_trans].
Qed.

(** The outer ORDER BY of the window query finds its input in order. *)
Lemma query_window_ranked_temps (t : list row) : query_window t = ranked_temps t.
Proof.
  unfold query_window. apply sort_by_of_sorted.
  apply StronglySorted_Sorted, ranked_temps_sorted.
Qed.

(** C4: for every table, the ranking report holds exactly the table's
    records, each with rank 1 + the number of records of the same date with
    a strictly greater temperature; its rows are ordered by reading date,
    then by rank ascending; for the loaded dataset the ranks of each date
    are 1, 2, 3, 4, each once. *)
Theorem ranking_report_rank_with_gaps :
  (forall t : list row, Permutation (query_window t) (map (ranked_by_count t) t))
  /\ (forall t : list row,
        StronglySorted (fun a b => date_rank_leb a b = true) (query_window t))
  /\ Forall (fun d => map temp_rank (rows_of_date d (query_window loaded_rows))
                      = [1; 2; 3; 4]%Z)
            ["2025-01-01"; "2025-01-02"; "2025-01-03"].
Proof.
  split; [|split].
  - intros t. rewrite query_window_ranked_temps, ranked_temps_spec.
    apply Permutation_map, sort_by_perm.
  - intros t. apply sort_by_sorted; [apply date_rank_leb_total | apply date_rank_leb_trans].
  - repeat constructor.
Qed.

(** Two cities tied on mean temperature come out in descending order of
    city. *)
Example aggregation_with_ties :
  map a_city
      (query_avg [mkRow 1 "A" "2025-01-01" 1.5 40.0; mkRow 2 "B" "2025-01-01" 1.5 50.0;
                  mkRow 3 "C" "2025-01-01" 9.0 60.0])
  = ["C"; "B"; "A"].
Proof. vm_compute. reflexivity. Qed.

(** Two records tied for hottest both get rank 1 and the next one rank 3. *)
Example rank_with_ties :
  map temp_rank
      (query_window [mkRow 1 "A" "2025-01-01" 3.0 0; mkRow 2 "B" "2025-01-01" 7.5 0;
                     mkRow 3 "C" "2025-01-01" 7.5 0])
  = [1; 1; 3]%Z.
Proof. reflexivity. Qed.

(** ** The top-per-partition filter *)

Lemma sort_by_incl {A : Type} (leb : A -> A -> bool) (l : list A) : incl (sort_by leb l) l.
Proof. intros x Hx. eapply Permutation_in; [apply sort_by_perm | exact Hx]. Qed.

Lemma is_top_true (r : ranked_row) : is_top r = true <-> temp_rank r = 1%Z.
Proof. unfold is_top. apply Z.eqb_eq. Qed.

(** C5: for every table the CTE query returns the ranking report's rows of
    rank 1 ordered by reading date; its rows are rows of the ranking
    report, all of rank 1, in date order; for the loaded dataset it holds
    one row for each distinct date of the table and misses rows of the
    ranking report. *)
Theorem cte_is_top_of_ranking :
  (forall t : list row, query_cte t = top_of_ranking t)
  /\ (forall t : list row, incl (query_cte t) (query_window t))
  /\ (forall t : list row, Forall (fun r => temp_rank r = 1%Z) (query_cte t))
  /\ (forall t : list row,
        StronglySorted (fun a b => date_leb a b = true) (query_cte t))
  /\ map r_reading_date (query_cte loaded_rows)
     = nodup string_dec (map reading_date loaded_rows)
  /\ (exists r, In r (query_window loaded_rows) /\ ~ In r (query_cte loaded_rows)).
Proof.
  repeat split.
  - intros t. unfold top_of_ranking, query_cte.
    now rewrite query_window_ranked_temps.
  - intros t r Hr. rewrite query_window_ranked_temps.
    apply sort_by_incl in Hr. apply filter_In in Hr. tauto.
  - intros t. apply Forall_forall. intros r Hr.
    apply sort_by_incl in Hr. apply filter_In in Hr. now apply is_top_true.
  - intros t. apply sort_by_sorted; [apply date_leb_total | apply date_leb_trans].
  - exists (mkRanked "Houston" "2025-01-01" 10.2 2). split.
    + vm_compute. tauto.
    + vm_compute. intros [H|[H|[H|[]]]]; discriminate H.
Qed.

(** ** The aggregation report on the loaded dataset *)

Lemma loaded_rows_eq :
  loaded_rows
  = [ mkRow 1 "New York" "2025-01-01" (-5.2) 35.0;
      mkRow 2 "New York" "2025-01-02" (-2.1) 40.0;
      mkRow 3 "New York" "2025-01-03" 0.5 42.0;
      mkRow 4 "Chicago" "2025-01-01" (-7.0) 50.0;
      mkRow 5 "Chicago" "2025-01-02" (-5.5) 55.0;
      mkRow 6 "Chicago" "2025-01-03" (-3.2) 48.0;
      mkRow 7 "Houston" "2025-01-01" 10.2 70.0;
      mkRow 8 "Houston" "2025-01-02" 12.1 68.0;
      mkRow 9 "Houston" "2025-01-03" 15.0 65.0;
      mkRow 10 "San Diego" "2025-01-01" 15.2 55.0;
      mkRow 11 "San Diego" "2025-01-02" 16.5 52.0;
      mkRow 12 "San Diego" "2025-01-03" 18.0 50.0 ].
Proof. reflexivity. Qed.

(** The aggregation report of the loaded dataset, evaluated. *)
Lemma query_avg_loaded :
  query_avg loaded_rows
  = [ mkAvg "San Diego" (49700 # 3000) (157000 # 3000);
      mkAvg "Houston" (37300 # 3000) (203000 # 3000);
      mkAvg "New York" (-6800 # 3000) (117000 # 3000);
      mkAvg "Chicago" (-15700 # 3000) (153000 # 3000) ].
Proof. vm_compute. reflexivity. Qed.

(** Rows in strictly descending order of mean temperature. *)
Definition strictly_descending (df : list avg_row) : Prop :=
  StronglySorted (fun a b => avg_temp b < avg_temp a) df.

(** C1, as amended: the rows of the aggregation report of the loaded
    dataset are strictly ordered by descending mean temperature, and that
    order is San Diego, Houston, New York, Chicago. *)
Theorem aggregation_report_order :
  strictly_descending (query_avg loaded_rows)
  /\ map a_city (query_avg loaded_rows) = ["San Diego"; "Houston"; "New York"; "Chicago"].
Proof.
  split; [|vm_compute; reflexivity].
  unfold strictly_descending. rewrite query_avg_loaded.
  repeat constructor.
Qed.

(** C1, as stated, fails: Houston is not the first row of the report. *)
Lemma aggregation_report_order_not_houston_first :
  ~ (strictly_descending (query_avg loaded_rows)
     /\ map a_city (query_avg loaded_rows) = ["Houston"; "San Diego"; "New York"; "Chicago"]).
Proof. intros [_ H]. vm_compute in H. discriminate H. Qed.

(** C3: the aggregation report of the loaded dataset has four rows, one
    for each distinct city of the table; each row holds the mean of the
    three temperatures and the mean of the three humidities of its city;
    the Houston row holds (10.2+12.1+15.0)/3 and (70.0+68.0+65.0)/3. *)
Theorem aggregation_report_means :
  List.length (query_avg loaded_rows) = 4%nat
  /\ NoDup (map a_city (query_avg loaded_rows))
  /\ (forall c, In c (map a_city (query_avg loaded_rows)) <-> In c (map city loaded_rows))
  /\ Forall (fun a =>
               let g := rows_of_city (a_city a) loaded_rows in
               List.length g = 3%nat
               /\ avg_temp a == mean (map temperature g)
               /\ avg_humidity a == mean (map humidity g))
            (query_avg loaded_rows)
  /\ (exists a, In a (query_avg loaded_rows)
                /\ a_city a = "Houston"
                /\ avg_temp a == (10.2 + 12.1 + 15.0) / 3
                /\ avg_humidity a == (70.0 + 68.0 + 65.0) / 3).
Proof.
  rewrite query_avg_loaded, loaded_rows_eq.
  split; [reflexivity|]. split; [|split; [|split]].
  - repeat constructor; simpl; intuition discriminate.
  - intros c. simpl. tauto.
  - repeat constructor.
  - exists (mkAvg "Houston" (37300 # 3000) (203000 # 3000)).
    split; [simpl; tauto|]. repeat split.
Qed.

(** ** The rank-1 record of each date *)

Definition top_cities (t : list row) : list (string * string) :=
  map (fun r => (r_reading_date r, r_city r)) (filter is_top (query_window t)).

(** C2, as amended: in the ranking report of the loaded dataset exactly one
    record of each date has rank 1, and it is San Diego on each of the
    three dates. *)
Theorem rank_one_per_date :
  top_cities loaded_rows
  = [("2025-01-01", "San Diego"); ("2025-01-02", "San Diego"); ("2025-01-03", "San Diego")].
Proof. reflexivity. Qed.

(** C2, as stated, fails: Houston is not the rank-1 record of 2025-01-01
    or of 2025-01-02. *)
Lemma rank_one_per_date_not_houston :
  top_cities loaded_rows
  <> [("2025-01-01", "Houston"); ("2025-01-02", "Houston"); ("2025-01-03", "San Diego")].
Proof. vm_compute. discriminate. Qed.

(** ** The table during the run *)

(** A read that succeeds leaves the connection as it is. *)
Lemma read_sql_query_ok_db (faulty : nat -> bool) {A : Type} (q : list row -> A) (w : world) :
  is_ok (fst (read_sql_query faulty q w)) = true ->
  db (snd (read_sql_query faulty q w)) = db w.
Proof.
  unfold read_sql_query, engine, select_from.
  destruct (faulty (ncalls w)); [discriminate|].
  destruct (closed (db w)); [discriminate|].
  destruct (climate_data (db w)); [reflexivity | discriminate].
Qed.

Lemma print_db (args : print_call) (w : world) : db (snd (print args w)) = db w.
Proof. reflexivity. Qed.

(** Sequencing two steps that keep the connection when they succeed keeps
    the connection when the sequence succeeds. *)
Lemma bind_ok_db {A B : Type} (m : M A) (k : A -> M B) (w : world) :
  (is_ok (fst (m w)) = true -> db (snd (m w)) = db w) ->
  (forall a w', is_ok (fst (k a w')) = true -> db (snd (k a w')) = db w') ->
  is_ok (fst (bind m k w)) = true ->
  db (snd (bind m k w)) = db w.
Proof.
  intros Hm Hk. unfold bind. destruct (m w) as [[a|e] w'] eqn:E; cbn [fst snd is_ok] in *.
  - intros Hok. rewrite (Hk a w' Hok). now apply Hm.
  - discriminate.
Qed.

Lemma run_basic_analytics_ok_db (faulty : nat -> bool) (w : world) :
  is_ok (fst (run_basic_analytics faulty w)) = true ->
  db (snd (run_basic_analytics faulty w)) = db w.
Proof.
  unfold run_basic_analytics.
  apply bind_ok_db; [apply read_sql_query_ok_db|]. intros df w1.
  apply bind_ok_db; [intros _; apply print_db|]. intros _ w2 _. apply print_db.
Qed.

Lemma run_advanced_analytics_ok_db (faulty : nat -> bool) (w : world) :
  is_ok (fst (run_advanced_analytics faulty w)) = true ->
  db (snd (run_advanced_analytics faulty w)) = db w.
Proof.
  unfold run_advanced_analytics.
  apply bind_ok_db; [apply read_sql_query_ok_db|]. intros df w1.
  apply bind_ok_db; [intros _; apply print_db|]. intros _ w2.
  apply bind_ok_db; [intros _; apply print_db|]. intros _ w3.
  apply bind_ok_db; [apply read_sql_query_ok_db|]. intros df' w4.
  apply bind_ok_db; [intros _; apply print_db|]. intros _ w5 _. apply print_db.
Qed.

(** C8: the load succeeds and leaves exactly twelve records, the four
    cities times the three dates, each with the non-null literal values of
    the script; each of the three analytics queries and the full-table
    read, when it succeeds, leaves the connection and its table as they
    are, so that the table still holds the twelve loaded records when the
    run has done them all. *)
Theorem table_fixed_after_load :
  fst (load start) = Ok tt
  /\ List.length loaded_rows = 12%nat
  /\ map (fun r => (city r, reading_date r)) loaded_rows
     = list_prod ["New York"; "Chicago"; "Houston"; "San Diego"]
                 ["2025-01-01"; "2025-01-02"; "2025-01-03"]
  /\ map values loaded_rows = records
  /\ (forall faulty w,
        is_ok (fst (run_basic_analytics faulty w)) = true ->
        db (snd (run_basic_analytics faulty w)) = db w)
  /\ (forall faulty w,
        is_ok (fst (run_advanced_analytics faulty w)) = true ->
        db (snd (run_advanced_analytics faulty w)) = db w)
  /\ (forall faulty w,
        is_ok (fst (read_sql_query faulty query_all w)) = true ->
        db (snd (read_sql_query faulty query_all w)) = db w)
  /\ fst ((load ;;
           run_basic_analytics no_fault ;;
           run_advanced_analytics no_fault ;;
           read_sql_query no_fault query_all) start) = Ok loaded_rows
  /\ table_rows (db (snd ((load ;;
                           run_basic_analytics no_fault ;;
                           run_advanced_analytics no_fault ;;
                           read_sql_query no_fault query_all) start)))
     = loaded_rows.
Proof.
  split; [reflexivity|]. split; [reflexivity|]. split; [reflexivity|].
  split; [reflexivity|]. split; [|split; [|split; [|split]]].
  - apply run_basic_analytics_ok_db.
  - apply run_advanced_analytics_ok_db.
  - intros faulty w. apply read_sql_query_ok_db.
  - vm_compute. reflexivity.
  - vm_compute. reflexivity.
Qed.

(** ** Loading twice *)

(** C10: a second call of the loader on the same connection succeeds and
    inserts the twelve records again, with new row ids: the table then holds
    twenty-four rows, so the loader run twice differs from the loader run
    once. *)
Theorem loader_not_idempotent :
  let twice := load ;; create_and_populate_db no_fault in
  fst (twice start) = Ok tt
  /\ List.length (table_rows (db (snd (twice start)))) = 24%nat
  /\ map values (table_rows (db (snd (twice start)))) = (records ++ records)%list
  /\ map id (table_rows (db (snd (twice start))))
     = map Z.of_nat (seq 1 24)
  /\ db (snd (twice start)) <> db (snd (load start)).
Proof.
  cbv zeta. repeat split; try reflexivity.
  intros H. apply (f_equal (fun c => List.length (table_rows c))) in H.
  vm_compute in H. discriminate H.
Qed.

(** ** The printed report *)

(** The standard output of a run without faults. *)
Definition report : list print_call := stdout (snd (main no_fault start)).

Lemma report_eq :
  report
  = [ [AStr "=== Average Temperature & Humidity by City ==="];
      [AFrame (DfAvg (query_avg loaded_rows)); AStr newline];
      [AStr "=== Window Function: Temperature Rank per Date ==="];
      [AFrame (DfRanked (query_window loaded_rows)); AStr newline];
      [AStr "=== CTE: Hottest City per Date ==="];
      [AFrame (DfRanked (query_cte loaded_rows)); AStr newline];
      [AStr "=== Full climate_data Table in Pandas ==="];
      [AFrame (DfAll (head loaded_rows)); AStr newline];
      [AStr "=== Correlation Matrix between Temperature & Humidity ==="];
      [AFrame (DfCorr (corr (temperature_humidity loaded_rows)))] ].
Proof. reflexivity. Qed.

(** C7, as amended: a run prints five labelled sections in the fixed order
    average-by-city table, rank-per-date table, hottest-city-per-date
    table, first five records of the table, correlation matrix; each is
    preceded by a header line; the first four are followed by a blank line
    and the correlation matrix, printed last, is not; of the twelve records
    only the first five are printed. *)
Theorem report_sections :
  map is_header report
  = [true; false; true; false; true; false; true; false; true; false]
  /\ frames report
     = [ DfAvg (query_avg loaded_rows);
         DfRanked (query_window loaded_rows);
         DfRanked (query_cte loaded_rows);
         DfAll (firstn 5 loaded_rows);
         DfCorr (corr (temperature_humidity loaded_rows)) ]
  /\ map leaves_blank_line (frame_prints report) = [true; true; true; true; false]
  /\ List.length (firstn 5 loaded_rows) = 5%nat.
Proof.
  rewrite report_eq. repeat split.
Qed.

(** The report as C7 states it: four header lines, every frame followed
    by a blank line, the whole table among the frames. *)
Definition four_sections_full_table (out : list print_call) : Prop :=
  List.length (headers out) = 4%nat
  /\ forallb leaves_blank_line (frame_prints out) = true
  /\ In (DfAll loaded_rows) (frames out).

(** C7, as stated, fails on the run: there are five header lines, the
    correlation matrix is not followed by a blank line, and the table frame
    that is printed holds five records. *)
Lemma report_not_four_sections :
  ~ four_sections_full_table report
  /\ List.length (headers report) = 5%nat
  /\ forallb leaves_blank_line (frame_prints report) = false
  /\ ~ In (DfAll loaded_rows) (frames report).
Proof.
  assert (Hh : List.length (headers report) = 5%nat) by (rewrite report_eq; reflexivity).
  split; [|split; [exact Hh | split]].
  - intros [H _]. rewrite Hh in H. discriminate H.
  - rewrite report_eq. reflexivity.
  - rewrite report_eq. cbn [frames shown_frame In].
    intros [H|[H|[H|[H|[H|[]]]]]];
      [discriminate H | discriminate H | discriminate H | | discriminate H].
    assert (Hlen := f_equal (fun f => match f with
                                      | DfAll df => List.length df
                                      | _ => 0%nat
                                      end) H).
    cbv beta iota in Hlen. rewrite loaded_rows_eq in Hlen. discriminate Hlen.
Qed.

(** ** Closing the connection *)

(** The engine calls of [main] before [conn.close()]: CREATE TABLE, the
    batch INSERT, COMMIT and the four SELECTs. *)
Definition calls_before_close : nat := 7.

(** C9, as amended: the connection is closed at the end of [main] exactly
    when none of the engine calls before [conn.close()] raises; when one
    raises, [main] ends with that exception and the connection is left
    open. *)
Theorem close_reached_iff_no_fault (faulty : nat -> bool) :
  closed (db (snd (main faulty start)))
  = match first_fault faulty 0 calls_before_close with None => true | Some _ => false end
  /\ fst (main faulty start)
     = match first_fault faulty 0 calls_before_close with
       | None => Ok tt
       | Some _ => Raise MemoryError
       end.
Proof.
  unfold calls_before_close.
  lazy -[corr query_avg query_window query_cte head temperature_humidity].
  destruct (faulty 0%nat); [split; reflexivity|].
  destruct (faulty 1%nat); [split; reflexivity|].
  destruct (faulty 2%nat); [split; reflexivity|].
  destruct (faulty 3%nat); [split; reflexivity|].
  destruct (faulty 4%nat); [split; reflexivity|].
  destruct (faulty 5%nat); [split; reflexivity|].
  destruct (faulty 6%nat); split; reflexivity.
Qed.

(** C9, as stated, fails: when the aggregation query raises, the run ends
    with the exception and the connection is still open. *)
Lemma close_not_reached_when_query_raises :
  fst (main (fun n => Nat.eqb n 3) start) = Raise MemoryError
  /\ closed (db (snd (main (fun n => Nat.eqb n 3) start))) = false.
Proof.
  lazy -[corr query_avg query_window query_cte head temperature_humidity].
  split; reflexivity.
Qed.

(** ** The correlation matrix *)

Local Open Scope R_scope.

Lemma dev_products_cons (mx my : R) (p : R * R) (l : list (R * R)) :
  dev_products mx my (p :: l) = (fst p - mx) * (snd p - my) + dev_products mx my l.
Proof. reflexivity. Qed.

Lemma dev_products_swap (mx my : R) (x : list R) :
  forall y, dev_products mx my (combine x y) = dev_products my mx (combine y x).
Proof.
  induction x as [|a x IH]; intros [|b y]; try reflexivity.
  cbn [combine]. rewrite !dev_products_cons, IH. cbn [fst snd]. ring.
Qed.

Lemma ssqdm_sym (x y : list R) : ssqdm x y = ssqdm y x.
Proof. unfold ssqdm. apply dev_products_swap. Qed.

Lemma combine_diag (x : list R) :
  forall y, List.length x = List.length y ->
            combine x x = map (fun p : R * R => (fst p, fst p)) (combine x y)
            /\ combine y y = map (fun p : R * R => (snd p, snd p)) (combine x y).
Proof.
  induction x as [|a x IH]; intros [|b y] Hlen; try discriminate Hlen.
  - split; reflexivity.
  - injection Hlen as Hlen. destruct (IH y Hlen) as [H1 H2].
    cbn [combine map fst snd]. now rewrite H1, H2.
Qed.

(** Cauchy-Schwarz for the deviations of a list of pairs. *)
Lemma dev_products_cauchy_schwarz (mx my : R) (l : list (R * R)) :
  let a := dev_products mx mx (map (fun p => (fst p, fst p)) l) in
  let b := dev_products my my (map (fun p => (snd p, snd p)) l) in
  let c := dev_products mx my l in
  0 <= a /\ 0 <= b /\ c * c <= a * b.
Proof.
  induction l as [|[u v] l IH]; cbv zeta in *.
  - unfold dev_products. simpl. lra.
  - cbn [map]. rewrite !dev_products_cons. cbn [fst snd].
    destruct IH as (Ha & Hb & Hc).
    set (a := dev_products mx mx _) in *.
    set (b := dev_products my my _) in *.
    set (c := dev_products mx my l) in *.
    set (s := u - mx). set (t := v - my).
    split; [nra|]. split; [nra|].
    (* 2 c s t <= a t^2 + s^2 b *)
    assert (Hmid : 2 * (c * (s * t)) <= a * (t * t) + (s * s) * b).
    { destruct (Rle_dec (2 * (c * (s * t))) (a * (t * t) + (s * s) * b)) as [H|H]; [exact H|].
      exfalso. apply Rnot_le_lt in H.
      assert (0 <= a * (t * t)) by nra.
      assert (0 <= s * s * b) by nra.
      assert (Hsq : (a * (t * t) + s * s * b) * (a * (t * t) + s * s * b)
                    < (2 * (c * (s * t))) * (2 * (c * (s * t)))) by nra.
      assert (Hprod : (c * (s * t)) * (c * (s * t)) <= (a * (t * t)) * (s * s * b)).
      { replace ((c * (s * t)) * (c * (s * t))) with ((c * c) * ((s * t) * (s * t))) by ring.
        replace ((a * (t * t)) * (s * s * b)) with ((a * b) * ((s * t) * (s * t))) by ring.
        apply Rmult_le_compat_r; [nra | exact Hc]. }
      set (P := a * (t * t)) in *. set (Q' := s * s * b) in *.
      set (W := c * (s * t)) in *.
      pose proof (Rle_0_sqr (P - Q')) as Hd. unfold Rsqr in Hd.
      clearbody P Q' W. nra. }
    nra.
Qed.

Lemma dev_products_diag_nonneg (m : R) (x : list R) : 0 <= dev_products m m (combine x x).
Proof.
  induction x as [|a x IH]; [unfold dev_products; simpl; lra|].
  cbn [combine]. rewrite dev_products_cons. cbn [fst snd].
  pose proof (Rle_0_sqr (a - m)) as Hsq. unfold Rsqr in Hsq. lra.
Qed.

Lemma ssqdm_diag_nonneg (x : list R) : 0 <= ssqdm x x.
Proof. apply dev_products_diag_nonneg. Qed.

Lemma ssqdm_cauchy_schwarz (x y : list R) :
  List.length x = List.length y ->
  ssqdm x y * ssqdm x y <= ssqdm x x * ssqdm y y.
Proof.
  intros Hlen. unfold ssqdm.
  destruct (combine_diag x y Hlen) as [Hx Hy]. rewrite Hx, Hy.
  apply (dev_products_cauchy_schwarz (Rmean x) (Rmean y) (combine x y)).
Qed.

Lemma corr_entry_sym (x y : list R) : corr_entry x y = corr_entry y x.
Proof.
  unfold corr_entry. rewrite (ssqdm_sym x y), (Rmult_comm (ssqdm x x)). reflexivity.
Qed.

(** When an entry is a number, its divisor is positive. *)
Lemma corr_entry_some (x y : list R) (r : R) :
  corr_entry x y = Some r ->
  0 < sqrt (ssqdm x x * ssqdm y y) /\ r = ssqdm x y / sqrt (ssqdm x x * ssqdm y y).
Proof.
  unfold corr_entry.
  destruct (Req_dec_T (sqrt (ssqdm x x * ssqdm y y)) 0) as [E|E]; [discriminate|].
  intros H. injection H as <-. split; [|reflexivity].
  pose proof (sqrt_pos (ssqdm x x * ssqdm y y)). lra.
Qed.

Lemma corr_entry_diag (x : list R) : ssqdm x x <> 0 -> corr_entry x x = Some 1.
Proof.
  intros Hx. unfold corr_entry.
  rewrite (sqrt_square _ (ssqdm_diag_nonneg x)).
  destruct (Req_dec_T (ssqdm x x) 0) as [E|E]; [contradiction|].
  f_equal. now field.
Qed.

Lemma corr_entry_bound (x y : list R) (r : R) :
  List.length x = List.length y -> corr_entry x y = Some r -> Rabs r <= 1.
Proof.
  intros Hlen Hr. destruct (corr_entry_some _ _ _ Hr) as [Hd ->].
  set (d := sqrt (ssqdm x x * ssqdm y y)) in *.
  assert (Hab : 0 <= ssqdm x x * ssqdm y y).
  { apply Rmult_le_pos; apply ssqdm_diag_nonneg. }
  assert (Hdd : d * d = ssqdm x x * ssqdm y y) by (apply sqrt_sqrt; exact Hab).
  pose proof (ssqdm_cauchy_schwarz x y Hlen) as Hcs.
  assert (Hc : Rabs (ssqdm x y) <= d).
  { rewrite <- (Rabs_pos_eq d) by lra.
    apply Rsqr_le_abs_0. unfold Rsqr. lra. }
  unfold Rdiv. rewrite Rabs_mult, (Rabs_pos_eq (/ d)).
  - apply (Rmult_le_reg_r d); [exact Hd|].
    rewrite Rmult_assoc, Rinv_l by lra. lra.
  - left. now apply Rinv_0_lt_compat.
Qed.

Lemma corr_entry_sign (x y : list R) (r : R) :
  corr_entry x y = Some r -> 0 < ssqdm x y -> 0 < r.
Proof.
  intros Hr Hc. destruct (corr_entry_some _ _ _ Hr) as [Hd ->].
  now apply Rdiv_lt_0_compat.
Qed.

(** The entry is the Pearson coefficient: the common factor n - 1 of the
    sample covariance and of the two sample variances cancels. *)
Lemma corr_entry_pearson (x y : list R) (r : R) :
  List.length x = List.length y -> (2 <= List.length x)%nat ->
  corr_entry x y = Some r -> r = pearson x y.
Proof.
  intros Hlen Hn Hr. destruct (corr_entry_some _ _ _ Hr) as [Hd ->].
  unfold pearson, std, covariance. rewrite <- Hlen.
  set (k := INR (List.length x) - 1).
  assert (Hk : 0 < k).
  { unfold k. apply le_INR in Hn. simpl in Hn. lra. }
  pose proof (ssqdm_diag_nonneg x) as Hx. pose proof (ssqdm_diag_nonneg y) as Hy.
  rewrite <- sqrt_mult_alt by (apply Rmult_le_pos; [exact Hx | left; now apply Rinv_0_lt_compat]).
  replace (ssqdm x x / k * (ssqdm y y / k)) with ((ssqdm x x * ssqdm y y) / (k * k))
    by (field; lra).
  rewrite sqrt_div_alt by nra.
  rewrite (sqrt_square k) by lra.
  field. split; lra.
Qed.

(** The two columns of the run's frame. *)
Lemma column_temperature_loaded :
  column_temperature (temperature_humidity loaded_rows)
  = map Q2R [-5.2; -2.1; 0.5; -7.0; -5.5; -3.2; 10.2; 12.1; 15.0; 15.2; 16.5; 18.0]%Q.
Proof. rewrite loaded_rows_eq. reflexivity. Qed.

Lemma column_humidity_loaded :
  column_humidity (temperature_humidity loaded_rows)
  = map Q2R [35.0; 40.0; 42.0; 50.0; 55.0; 48.0; 70.0; 68.0; 65.0; 55.0; 52.0; 50.0]%Q.
Proof. rewrite loaded_rows_eq. reflexivity. Qed.

Ltac eval_ssqdm :=
  rewrite ?column_temperature_loaded, ?column_humidity_loaded;
  unfold ssqdm, dev_products, Rmean, Rsum;
  cbn [map combine fold_right List.length fst snd];
  rewrite INR_IZR_INZ; cbn [Z.of_nat Pos.of_succ_nat Pos.succ];
  unfold Q2R; cbn [Qnum Qden]; field.

Lemma ssqdm_temperature_loaded :
  let t := column_temperature (temperature_humidity loaded_rows) in
  ssqdm t t = 430897 / 400.
Proof. cbv zeta. eval_ssqdm. Qed.

Lemma ssqdm_humidity_loaded :
  let h := column_humidity (temperature_humidity loaded_rows) in
  ssqdm h h = 1321.
Proof. cbv zeta. eval_ssqdm. Qed.

Lemma ssqdm_temperature_humidity_loaded :
  let t := column_temperature (temperature_humidity loaded_rows) in
  let h := column_humidity (temperature_humidity loaded_rows) in
  ssqdm t h = 13369 / 20.
Proof. cbv zeta. eval_ssqdm. Qed.

Lemma columns_length_loaded :
  List.length (column_temperature (temperature_humidity loaded_rows)) = 12%nat
  /\ List.length (column_humidity (temperature_humidity loaded_rows)) = 12%nat.
Proof. rewrite column_temperature_loaded, column_humidity_loaded. split; reflexivity. Qed.

(** The off-diagonal entry of the run's matrix is a number. *)
Lemma corr_entry_loaded :
  let t := column_temperature (temperature_humidity loaded_rows) in
  let h := column_humidity (temperature_humidity loaded_rows) in
  exists r, corr_entry t h = Some r.
Proof.
  cbv zeta. unfold corr_entry.
  destruct (Req_dec_T _ 0) as [E|E]; [exfalso | eexists; reflexivity].
  apply sqrt_eq_0 in E.
  - rewrite ssqdm_temperature_loaded, ssqdm_humidity_loaded in E. lra.
  - apply Rmult_le_pos; apply ssqdm_diag_nonneg.
Qed.

(** C6, as amended: the correlation matrix of the run is symmetric, has 1
    on both diagonal entries, and its two off-diagonal entries are the same
    number, of magnitude at most 1, equal to the Pearson coefficient of the
    two columns (sample covariance over the product of the sample standard
    deviations) and, for the loaded dataset, strictly positive. *)
Theorem correlation_matrix_of_run :
  let df := temperature_humidity loaded_rows in
  temperature_temperature (corr df) = Some 1
  /\ humidity_humidity (corr df) = Some 1
  /\ exists r, temperature_humidity_ (corr df) = Some r
               /\ humidity_temperature (corr df) = Some r
               /\ Rabs r <= 1
               /\ r = pearson (column_temperature df) (column_humidity df)
               /\ 0 < r.
Proof.
  cbv zeta. unfold corr; cbn [temperature_temperature humidity_humidity
                               temperature_humidity_ humidity_temperature].
  destruct columns_length_loaded as [Ht Hh].
  split; [|split].
  - apply corr_entry_diag. rewrite ssqdm_temperature_loaded. lra.
  - apply corr_entry_diag. rewrite ssqdm_humidity_loaded. lra.
  - destruct corr_entry_loaded as [r Hr]. exists r.
    split; [exact Hr|]. split; [now rewrite corr_entry_sym|].
    split; [|split].
    + apply (corr_entry_bound _ _ _ (eq_trans Ht (eq_sym Hh)) Hr).
    + apply corr_entry_pearson; [congruence | rewrite Ht; lia | exact Hr].
    + apply (corr_entry_sign _ _ _ Hr). rewrite ssqdm_temperature_humidity_loaded. lra.
Qed.

(** C6, as stated, fails: the off-diagonal entry of the run's matrix is
    not negative. *)
Lemma correlation_not_negative :
  ~ (exists r, temperature_humidity_ (corr (temperature_humidity loaded_rows)) = Some r
               /\ r < 0).
Proof.
  intros [r [Hr Hneg]]. unfold corr in Hr; cbn [temperature_humidity_] in Hr.
  pose proof (corr_entry_sign _ _ _ Hr) as Hpos.
  rewrite ssqdm_temperature_humidity_loaded in Hpos. lra.
Qed.

Local Close Scope R_scope.

(** ** The loader on any connection *)

Lemma rows_of_params_length (ps : list params) :
  forall i, forallb present ps = true ->
            List.length (rows_of_params i ps) = List.length ps.
Proof.
  induction ps as [|[[[[c|] [d|]] [tp|]] [h|]] ps IH]; intros i H; simpl in *;
    try discriminate H; [reflexivity|].
  now rewrite IH.
Qed.

Lemma rows_of_params_values (ps : list params) :
  forall i, map values (rows_of_params i ps) = stored_prefix ps.
Proof.
  induction ps as [|[[[[c|] [d|]] [tp|]] [h|]] ps IH]; intros i; simpl; try reflexivity.
  now rewrite IH.
Qed.

Lemma rows_of_params_ids (ps : list params) :
  forall i, map id (rows_of_params i ps)
            = map (fun k => (i + Z.of_nat k)%Z) (seq 1 (List.length (rows_of_params i ps))).
Proof.
  induction ps as [|[[[[c|] [d|]] [tp|]] [h|]] ps IH]; intros i; simpl; try reflexivity.
  f_equal. rewrite IH, <- (seq_shift _ 1), map_map. apply map_ext. intros k. lia.
Qed.


(** The largest rowid of the rows is below every bound of their rowids. *)
Lemma largest_rowid_bound (rs : list row) (m : Z) :
  Forall (fun r => (id r <= m)%Z) rs ->
  match largest_rowid rs with
  | Some k => (k <= m)%Z
  | None => True
  end.
Proof.
  intros H. destruct rs as [|r rs]; [exact I|].
  apply Forall_cons_iff in H. destruct H as [Hr Hrs]. cbn [largest_rowid].
  induction Hrs as [|x rs Hx _ IH]; cbn [fold_right]; lia.
Qed.

(** On a table with its rowids in order the next rowid is the counter
    plus one, as long as the counter is below the largest rowid. *)
Lemma new_rowid_next (t : table) :
  rowids_ok t -> (last_rowid t < max_rowid)%Z ->
  new_rowid t = Some (last_rowid t + 1)%Z.
Proof.
  intros (H0 & _ & Hb) Hroom. unfold new_rowid.
  assert (Hle : Forall (fun r => (id r <= last_rowid t)%Z) (rows t)).
  { eapply Forall_impl; [|exact Hb]. cbv beta. intros r Hr. lia. }
  pose proof (largest_rowid_bound _ _ Hle) as Hk.
  assert (E : (max_rowid <=? last_rowid t)%Z = false) by (apply Z.leb_gt; lia).
  rewrite E. destruct (largest_rowid (rows t)) as [k|].
  - assert (E' : (max_rowid <=? k)%Z = false) by (apply Z.leb_gt; lia).
    rewrite E'. cbn [orb]. f_equal. lia.
  - f_equal. lia.
Qed.

Lemma new_rowid_some (t : table) (i : Z) :
  rowids_ok t -> new_rowid t = Some i ->
  i = (last_rowid t + 1)%Z /\ (last_rowid t < max_rowid)%Z.
Proof.
  intros Hok Hi. destruct (Z_lt_le_dec (last_rowid t) max_rowid) as [Hlt|Hge].
  - rewrite (new_rowid_next t Hok Hlt) in Hi. injection Hi as <-. now split.
  - unfold new_rowid in Hi. apply Z.leb_le in Hge. rewrite Hge in Hi.
    destruct (largest_rowid (rows t)); discriminate Hi.
Qed.

Lemma rowids_ok_snoc (t : table) (c d : string) (tp h : Q) :
  rowids_ok t ->
  rowids_ok {| rows := rows t ++ [mkRow (last_rowid t + 1) c d tp h];
               last_rowid := last_rowid t + 1 |}.
Proof.
  intros (H0 & Hs & Hb). repeat split; cbn [rows last_rowid].
  - lia.
  - rewrite map_app. cbn [map id].
    clear - Hs Hb. induction (rows t) as [|r rs IHr]; cbn [map app].
    + repeat constructor.
    + apply StronglySorted_inv in Hs. destruct Hs as [Hs Hr].
      apply Forall_cons_iff in Hb. destruct Hb as [Hr0 Hb].
      constructor; [now apply IHr|].
      apply Forall_app. split; [exact Hr|]. constructor; [lia | constructor].
  - apply Forall_app. split.
    + eapply Forall_impl; [|exact Hb]. cbv beta. intros r Hr. lia.
    + constructor; [|constructor]. cbn [id]. lia.
Qed.

(** An insert that succeeds stores the tuple under the next rowid. *)
Lemma insert_row_ok (t t' : table) (p : params) :
  rowids_ok t -> insert_row t p = Ok t' ->
  exists c d tp h,
    p = (Some c, Some d, Some tp, Some h)
    /\ t' = {| rows := rows t ++ [mkRow (last_rowid t + 1) c d tp h];
               last_rowid := last_rowid t + 1 |}.
Proof.
  intros Hok E. unfold insert_row in E.
  destruct (new_rowid t) as [i|] eqn:Hi; [|discriminate E].
  destruct (new_rowid_some t i Hok Hi) as [-> _].
  destruct p as [[[[c|] [d|]] [tp|]] [h|]]; try discriminate E.
  injection E as <-. now exists c, d, tp, h.
Qed.

Lemma insert_rows_keeps_rowids (ps : list params) :
  forall t, rowids_ok t -> rowids_ok (snd (insert_rows t ps)).
Proof.
  induction ps as [|p ps IH]; intros t Hok; [exact Hok|].
  cbn [insert_rows]. destruct (insert_row t p) as [t'|e] eqn:E; [|exact Hok].
  apply IH. destruct (insert_row_ok t t' p Hok E) as (c & d & tp & h & _ & ->).
  now apply rowids_ok_snoc.
Qed.

(** The batch insert in closed form, on a table with its rowids in order
    and with rowids left for the whole batch. *)
Lemma insert_rows_closed_form (ps : list params) :
  forall t,
    rowids_ok t ->
    (last_rowid t + Z.of_nat (List.length ps) <= max_rowid)%Z ->
    insert_rows t ps
    = (batch_result ps,
       {| rows := rows t ++ rows_of_params (last_rowid t) ps;
          last_rowid := last_rowid t
                        + Z.of_nat (List.length (rows_of_params (last_rowid t) ps)) |}).
Proof.
  induction ps as [|p ps IH]; intros t Hok Hroom.
  - destruct t as [rs i]. cbn. now rewrite app_nil_r, Z.add_0_r.
  - cbn [List.length] in Hroom.
    assert (Hnext : new_rowid t = Some (last_rowid t + 1)%Z)
      by (apply new_rowid_next; [exact Hok | lia]).
    cbn [insert_rows]. unfold insert_row. rewrite Hnext.
    destruct p as [[[[c|] [d|]] [tp|]] [h|]];
      try (destruct t as [rs i]; cbn; now rewrite app_nil_r, Z.add_0_r).
    rewrite IH; [|now apply rowids_ok_snoc | cbn [last_rowid]; lia].
    cbn [rows last_rowid rows_of_params List.length].
    rewrite <- app_assoc. cbn [app].
    unfold batch_result. cbn [first_null_column null_column].
    do 2 f_equal. lia.
Qed.





Lemma records_present : forallb present records = true.
Proof. reflexivity. Qed.

Lemma rows_of_params_records_length (i : Z) :
  List.length (rows_of_params i records) = 12%nat.
Proof. now rewrite rows_of_params_length. Qed.

(** The table a connection starts the loader with: the stored one or, when
    there is none, the empty one CREATE TABLE makes. *)
Lemma rowids_ok_empty : rowids_ok {| rows := []; last_rowid := 0 |}.
Proof. repeat split; simpl; [lia | constructor | constructor]. Qed.

(** The loader on an open connection: one step of evaluation for the
    three engine calls. *)
Lemma create_and_populate_db_open (tb : option table) (tx : option (option table))
      (out : list print_call) (n : nat) :
  let old := match tb with Some t => t | None => {| rows := []; last_rowid := 0 |} end in
  rowids_ok old ->
  (last_rowid old + 12 <= max_rowid)%Z ->
  create_and_populate_db no_fault
    {| db := {| closed := false; climate_data := tb; transaction := tx |};
       stdout := out; ncalls := n |}
  = (Ok tt,
     {| db := {| closed := false;
                 climate_data :=
                   Some {| rows := rows old ++ rows_of_params (last_rowid old) records;
                           last_rowid := last_rowid old + 12 |};
                 transaction := None |};
        stdout := out; ncalls := S (S (S n)) |}).
Proof.
  cbv zeta. intros Hok Hroom.
  unfold create_and_populate_db, bind, engine, no_fault.
  cbn [ncalls db stdout create_table_if_not_exists closed climate_data transaction].
  destruct tb as [t|];
    cbn [ncalls db stdout executemany_insert closed climate_data transaction];
    rewrite (insert_rows_closed_form records _ Hok Hroom);
    rewrite rows_of_params_records_length; reflexivity.
Qed.

(** X3: on every open connection whose table, when there is one, has its
    rowids in order and twelve rowids left, the loader succeeds, prints
    nothing, creates the table when it is missing, keeps the rows already
    stored and appends the twelve literal records behind them with the
    next twelve rowids, and leaves no transaction open. *)
Theorem create_and_populate_db_appends (tb : option table) (tx : option (option table))
        (out : list print_call) (n : nat) :
  let old := match tb with Some t => t | None => {| rows := []; last_rowid := 0 |} end in
  let w := {| db := {| closed := false; climate_data := tb; transaction := tx |};
              stdout := out; ncalls := n |} in
  let w' := snd (create_and_populate_db no_fault w) in
  rowids_ok old ->
  (last_rowid old + 12 <= max_rowid)%Z ->
  fst (create_and_populate_db no_fault w) = Ok tt
  /\ stdout w' = out
  /\ closed (db w') = false
  /\ in_transaction (db w') = false
  /\ firstn (List.length (rows old)) (table_rows (db w')) = rows old
  /\ map values (skipn (List.length (rows old)) (table_rows (db w'))) = records
  /\ map id (skipn (List.length (rows old)) (table_rows (db w')))
     = map (fun k => (last_rowid old + Z.of_nat k)%Z) (seq 1 12).
Proof.
  cbv zeta. intros Hok Hroom. rewrite (create_and_populate_db_open tb tx out n Hok Hroom).
  cbn [fst snd stdout db closed in_transaction transaction table_rows climate_data rows].
  repeat split.
  - rewrite firstn_app, Nat.sub_diag, firstn_all. cbn [firstn]. apply app_nil_r.
  - rewrite skipn_app, Nat.sub_diag, skipn_all. cbn [skipn app].
    now rewrite rows_of_params_values.
  - rewrite skipn_app, Nat.sub_diag, skipn_all. cbn [skipn app].
    now rewrite rows_of_params_ids, rows_of_params_records_length.
Qed.

(** The loader on a connection that holds five rows not yet committed:
    the transaction began on the empty table. *)
Lemma create_and_populate_db_appends_witness :
  let t := snd (insert_rows {| rows := []; last_rowid := 0 |} (firstn 5 records)) in
  let w := {| db := {| closed := false; climate_data := Some t; transaction := Some (Some {| rows := []; last_rowid := 0 |}) |};
              stdout := []; ncalls := 0 |} in
  let w' := snd (create_and_populate_db no_fault w) in
  rowids_ok t
  /\ (last_rowid t + 12 <= max_rowid)%Z
  /\ fst (create_and_populate_db no_fault w) = Ok tt
  /\ in_transaction (db w') = false
  /\ map id (table_rows (db w')) = map Z.of_nat (seq 1 17).
Proof.
  cbv zeta.
  assert (Hok : rowids_ok (snd (insert_rows {| rows := []; last_rowid := 0 |}
                                            (firstn 5 records))))
    by (apply insert_rows_keeps_rowids, rowids_ok_empty).
  assert (Hroom : (last_rowid (snd (insert_rows {| rows := []; last_rowid := 0 |}
                                                (firstn 5 records))) + 12 <= max_rowid)%Z)
    by (vm_compute; discriminate).
  split; [exact Hok|]. split; [exact Hroom|].
  destruct (create_and_populate_db_appends
              (Some (snd (insert_rows {| rows := []; last_rowid := 0 |} (firstn 5 records))))
              (Some (Some {| rows := []; last_rowid := 0 |})) [] 0 Hok Hroom) as (Hres & _ & _ & Htx & _).
  split; [exact Hres|]. split; [exact Htx|]. vm_compute. reflexivity.
Defined.

Lemma map_seq_offset {A : Type} (f : nat -> A) (c len : nat) :
  forall s, map (fun k => f (c + k)%nat) (seq s len) = map f (seq (c + s) len).
Proof.
  induction len as [|len IH]; intros s; [reflexivity|].
  cbn [seq map]. f_equal. rewrite IH. now rewrite Nat.add_succ_r.
Qed.

(** The loader called [n] times on a connection that has the table. *)
Lemma load_times_some (n : nat) :
  forall (t : table) (tx : option (option table)) (out : list print_call) (m : nat),
    rowids_ok t ->
    (last_rowid t + 12 * Z.of_nat n <= max_rowid)%Z ->
    exists (t' : table) (tx' : option (option table)) (m' : nat),
      load_times n {| db := {| closed := false; climate_data := Some t; transaction := tx |};
                      stdout := out; ncalls := m |}
      = (Ok tt, {| db := {| closed := false; climate_data := Some t'; transaction := tx' |};
                   stdout := out; ncalls := m' |})
      /\ last_rowid t' = (last_rowid t + 12 * Z.of_nat n)%Z
      /\ map id (rows t')
         = (map id (rows t)
            ++ map (fun k => (last_rowid t + Z.of_nat k)%Z) (seq 1 (12 * n)))%list
      /\ map values (rows t')
         = (map values (rows t) ++ List.concat (repeat records n))%list.
Proof.
  induction n as [|n IH]; intros t tx out m Hok Hroom.
  - exists t, tx, m. cbn [load_times ret]. rewrite Z.mul_0_r, Z.add_0_r, Nat.mul_0_r.
    cbn [seq map repeat List.concat]. now rewrite !app_nil_r.
  - cbn [load_times]. unfold bind at 1.
    assert (Hroom1 : (last_rowid t + 12 <= max_rowid)%Z) by lia.
    rewrite (create_and_populate_db_open (Some t) tx out m Hok Hroom1). cbv zeta.
    assert (Hok1 : rowids_ok {| rows := rows t ++ rows_of_params (last_rowid t) records;
                                last_rowid := last_rowid t + 12 |}).
    { pose proof (insert_rows_keeps_rowids records t Hok) as H.
      rewrite (insert_rows_closed_form records t Hok Hroom1) in H.
      rewrite rows_of_params_records_length in H. exact H. }
    destruct (IH {| rows := rows t ++ rows_of_params (last_rowid t) records;
                    last_rowid := last_rowid t + 12 |} None out (S (S (S m))) Hok1)
      as (t' & tx' & m' & Hrun & Hlast & Hids & Hvals); [cbn [last_rowid]; lia|].
    exists t', tx', m'. cbn [rows last_rowid] in *.
    split; [exact Hrun|]. split; [lia|]. split.
    + rewrite Hids, map_app, rows_of_params_ids, rows_of_params_records_length.
      rewrite <- app_assoc. f_equal.
      replace (12 * S n)%nat with (12 + 12 * n)%nat by lia.
      rewrite seq_app, map_app. f_equal.
      rewrite <- (map_seq_offset _ 12 (12 * n) 1).
      apply map_ext. intros k. lia.
    + rewrite Hvals, map_app, rows_of_params_values.
      cbn [repeat List.concat]. rewrite <- app_assoc. reflexivity.
Qed.

(** X4: the loader called [n] times on a fresh connection, as long as
    [12 * n] rowids exist, succeeds each time and leaves [12 * n] rows: the
    literal records [n] times over, with the rowids 1 to [12 * n], none of
    them reused. *)
Theorem load_times_rows (n : nat) :
  let res := (sqlite3_connect ;; load_times n) start in
  (12 * Z.of_nat n <= max_rowid)%Z ->
  fst res = Ok tt
  /\ map values (table_rows (db (snd res))) = List.concat (repeat records n)
  /\ map id (table_rows (db (snd res))) = map Z.of_nat (seq 1 (12 * n)).
Proof.
  cbv zeta. intros Hroom. destruct n as [|n]; [repeat split|].
  assert (Hroom0 : (last_rowid {| rows := []; last_rowid := 0 |} + 12 <= max_rowid)%Z)
    by (cbn [last_rowid]; lia).
  assert (Hok1 : rowids_ok {| rows := rows_of_params 0 records; last_rowid := 0 + 12 |}).
  { pose proof (insert_rows_keeps_rowids records _ rowids_ok_empty) as H.
    rewrite (insert_rows_closed_form records _ rowids_ok_empty Hroom0) in H.
    rewrite rows_of_params_records_length in H. exact H. }
  destruct (load_times_some n {| rows := rows_of_params 0 records; last_rowid := 0 + 12 |}
                            None [] 3 Hok1)
    as (t' & tx' & m' & Hrun & _ & Hids & Hvals); [cbn [last_rowid]; lia|].
  assert (Hres : (sqlite3_connect ;; load_times (S n)) start
                 = (Ok tt, {| db := {| closed := false; climate_data := Some t';
                                       transaction := tx' |};
                              stdout := []; ncalls := m' |})).
  { unfold bind at 1. cbn [sqlite3_connect start stdout ncalls load_times].
    unfold bind at 1. unfold memory_db.
    rewrite (create_and_populate_db_open None None [] 0 rowids_ok_empty Hroom0).
    exact Hrun. }
  rewrite Hres. cbn [fst snd db table_rows climate_data rows last_rowid] in *.
  split; [reflexivity|]. split.
  - rewrite Hvals, rows_of_params_values. reflexivity.
  - rewrite Hids, rows_of_params_ids, rows_of_params_records_length.
    replace (12 * S n)%nat with (12 + 12 * n)%nat by lia.
    rewrite seq_app, map_app. f_equal.
    rewrite <- (map_seq_offset _ 12 (12 * n) 1).
    apply map_ext. intros k. lia.
Qed.

(** Three loads in a row. *)
Lemma load_times_rows_witness :
  (12 * Z.of_nat 3 <= max_rowid)%Z
  /\ fst ((sqlite3_connect ;; load_times 3) start) = Ok tt
  /\ map id (table_rows (db (snd ((sqlite3_connect ;; load_times 3) start))))
     = map Z.of_nat (seq 1 36).
Proof.
  assert (Hroom : (12 * Z.of_nat 3 <= max_rowid)%Z) by (vm_compute; discriminate).
  split; [exact Hroom|].
  destruct (load_times_rows 3 Hroom) as (Hres & _ & Hids).
  split; [exact Hres | exact Hids].
Defined.

(** ** The reports on any connection *)

Lemma read_sql_query_outcome (faulty : nat -> bool) {A : Type} (q : list row -> A) (w : world) :
  read_sql_query faulty q w
  = (if faulty (ncalls w) then Raise MemoryError
     else if can_read (db w) then Ok (q (table_rows (db w)))
          else Raise (read_error (db w)),
     {| db := if faulty (ncalls w) then db w
              else if can_read (db w) then db w
                   else if closed (db w) then db w else rollback_db (db w);
        stdout := stdout w; ncalls := S (ncalls w) |}).
Proof.
  unfold read_sql_query, engine, select_from, can_read, read_error, has_table, table_rows.
  destruct (faulty (ncalls w)); [reflexivity|].
  destruct (closed (db w)); [reflexivity|].
  destruct (climate_data (db w)); reflexivity.
Qed.

(** X6: [run_advanced_analytics] prints the ranking section as soon as
    the first query is back and only then runs the CTE query: when the
    first query fails nothing is printed, when the second one fails the
    ranking section alone is out, and the function succeeds exactly when
    both engine calls run on an open connection with the table. *)
Theorem run_advanced_analytics_outcome (faulty : nat -> bool) (w : world) :
  let ok1 := negb (faulty (ncalls w)) && can_read (db w) in
  let ok2 := ok1 && negb (faulty (S (ncalls w))) in
  is_ok (fst (run_advanced_analytics faulty w)) = ok2
  /\ stdout (snd (run_advanced_analytics faulty w))
     = (stdout w
        ++ (if ok1
            then [ [AStr "=== Window Function: Temperature Rank per Date ==="];
                   [AFrame (DfRanked (query_window (table_rows (db w)))); AStr newline] ]
            else [])
        ++ (if ok2
            then [ [AStr "=== CTE: Hottest City per Date ==="];
                   [AFrame (DfRanked (query_cte (table_rows (db w)))); AStr newline] ]
            else []))%list.
Proof.
  cbv zeta. unfold run_advanced_analytics, bind. rewrite read_sql_query_outcome.
  destruct (faulty (ncalls w)); cbn [negb andb fst snd stdout is_ok];
    [now rewrite app_nil_r|].
  destruct (can_read (db w)) eqn:Hread; cbn [fst snd stdout is_ok print andb];
    [|now rewrite app_nil_r].
  rewrite read_sql_query_outcome. cbn [ncalls db stdout].
  destruct (faulty (S (ncalls w))); cbn [negb fst snd stdout is_ok].
  - rewrite <- !app_assoc. cbn [app]. repeat split.
  - rewrite Hread. cbn [fst snd stdout is_ok print].
    rewrite <- !app_assoc. repeat split.
Qed.

(** X7: whatever engine call fails first, [main] has printed a prefix of
    the full report at that point: nothing when the loader or the
    aggregation query fails, and otherwise the sections of the queries that
    ran, each complete. *)
Theorem main_prints_prefix_of_report (faulty : nat -> bool) :
  stdout (snd (main faulty start))
  = firstn (printed_before_fault (first_fault faulty 0 calls_before_close)) report.
Proof.
  unfold report, calls_before_close.
  lazy -[corr query_avg query_window query_cte head temperature_humidity].
  destruct (faulty 0%nat); [reflexivity|].
  destruct (faulty 1%nat); [reflexivity|].
  destruct (faulty 2%nat); [reflexivity|].
  destruct (faulty 3%nat); [reflexivity|].
  destruct (faulty 4%nat); [reflexivity|].
  destruct (faulty 5%nat); [reflexivity|].
  destruct (faulty 6%nat); reflexivity.
Qed.

(** ** The correlation matrix of any frame *)

Local Open Scope R_scope.


Lemma corr_entry_zero_l (x y : list R) : ssqdm x x = 0 -> corr_entry x y = None.
Proof.
  intros H. unfold corr_entry. rewrite H, Rmult_0_l, sqrt_0.
  destruct (Req_dec_T 0 0) as [_|E]; [reflexivity | contradiction].
Qed.

Lemma corr_entry_zero_r (x y : list R) : ssqdm y y = 0 -> corr_entry x y = None.
Proof. intros H. rewrite corr_entry_sym. now apply corr_entry_zero_l. Qed.

(** A column of at most one value has no spread. *)
Lemma ssqdm_short (x : list R) : (List.length x <= 1)%nat -> ssqdm x x = 0.
Proof.
  destruct x as [|a [|b x]]; cbn [List.length]; intros H; try lia.
  - reflexivity.
  - unfold ssqdm, dev_products, Rmean, Rsum. cbn [combine map fold_right fst snd List.length INR].
    field.
Qed.

(** A constant column has no spread. *)
Lemma ssqdm_constant {A : Type} (v : R) (l : list A) :
  ssqdm (map (fun _ => v) l) (map (fun _ => v) l) = 0.
Proof.
  destruct l as [|a l]; [reflexivity|].
  set (x := map (fun _ : A => v) (a :: l)).
  assert (Hmean : Rmean x = v).
  { unfold Rmean, x. rewrite length_map.
    assert (Hsum : forall l' : list A, Rsum (map (fun _ => v) l') = INR (List.length l') * v).
    { induction l' as [|b l' IH]; [simpl; ring|].
      cbn [map List.length]. rewrite S_INR. unfold Rsum in *. cbn [fold_right].
      rewrite IH. ring. }
    rewrite Hsum. field. apply not_0_INR. discriminate. }
  unfold ssqdm. rewrite Hmean. unfold x. clear.
  induction (a :: l) as [|b l' IH]; [reflexivity|].
  cbn [map combine]. rewrite dev_products_cons, IH. cbn [fst snd]. ring.
Qed.






(** X10: a frame whose temperature column is constant has NaN in every
    entry that involves temperature, whatever the humidities are; the same
    holds for a constant humidity column. *)
Theorem corr_constant_column_nan (c : Q) (vs : list Q) :
  let df_t := map (fun v => (c, v)) vs in
  let df_h := map (fun v => (v, c)) vs in
  temperature_temperature (corr df_t) = None
  /\ temperature_humidity_ (corr df_t) = None
  /\ humidity_temperature (corr df_t) = None
  /\ humidity_humidity (corr df_h) = None
  /\ temperature_humidity_ (corr df_h) = None
  /\ humidity_temperature (corr df_h) = None.
Proof.
  cbv zeta. unfold corr; cbn [temperature_temperature humidity_humidity
                               temperature_humidity_ humidity_temperature].
  assert (Ht : column_temperature (map (fun v => (c, v)) vs) = map (fun _ => Q2R c) vs).
  { unfold column_temperature. rewrite map_map. reflexivity. }
  assert (Hh : column_humidity (map (fun v => (v, c)) vs) = map (fun _ => Q2R c) vs).
  { unfold column_humidity. rewrite map_map. reflexivity. }
  rewrite Ht, Hh.
  pose proof (ssqdm_constant (Q2R c) vs) as H0.
  repeat split;
    first [ now apply corr_entry_zero_l | now apply corr_entry_zero_r ].
Qed.

(** X11: the correlation matrix of a frame with no row or with one row is
    NaN in all four entries. *)
Theorem corr_short_frame_nan :
  corr [] = mkCorr None None None None
  /\ forall p : Q * Q, corr [p] = mkCorr None None None None.
Proof.
  split; [|intros p]; unfold corr;
    rewrite !corr_entry_zero_l; try reflexivity;
    apply ssqdm_short; simpl; lia.
Qed.

Local Close Scope R_scope.

(** ** The ranking and the hottest records on any table *)

Lemma Permutation_filter' {A : Type} (f : A -> bool) (l l' : list A) :
  Permutation l l' -> Permutation (filter f l) (filter f l').
Proof.
  induction 1 as [|x l l' _ IH|x y l|l l' l'' _ IH1 _ IH2]; simpl.
  - constructor.
  - destruct (f x); auto.
  - destruct (f x), (f y); auto using perm_swap.
  - etransitivity; eassumption.
Qed.

Lemma query_window_perm (t : list row) :
  Permutation (query_window t) (map (ranked_by_count t) t).
Proof.
  rewrite query_window_ranked_temps, ranked_temps_spec.
  apply Permutation_map, sort_by_perm.
Qed.

Lemma query_cte_perm (t : list row) :
  Permutation (query_cte t) (filter is_top (map (ranked_by_count t) t)).
Proof.
  unfold query_cte. etransitivity; [apply sort_by_perm|].
  apply Permutation_filter'. rewrite ranked_temps_spec.
  apply Permutation_map, sort_by_perm.
Qed.

Lemma in_query_window (t : list row) (r : ranked_row) :
  In r (query_window t) <-> exists x, In x t /\ r = ranked_by_count t x.
Proof.
  split.
  - intros H. apply (Permutation_in _ (query_window_perm t)) in H.
    apply in_map_iff in H. destruct H as [x [<- Hx]]. eauto.
  - intros [x [Hx ->]]. apply (Permutation_in _ (Permutation_sym (query_window_perm t))).
    now apply in_map.
Qed.

Lemma in_query_cte (t : list row) (r : ranked_row) :
  In r (query_cte t)
  <-> exists x, In x t /\ r = ranked_by_count t x /\ rank_by_count t x = 1%Z.
Proof.
  split.
  - intros H. apply (Permutation_in _ (query_cte_perm t)) in H.
    apply filter_In in H. destruct H as [H Htop].
    apply in_map_iff in H. destruct H as [x [<- Hx]].
    exists x. repeat split; [exact Hx|]. now apply is_top_true in Htop.
  - intros [x (Hx & -> & H1)].
    apply (Permutation_in _ (Permutation_sym (query_cte_perm t))).
    apply filter_In. split; [now apply in_map|]. now apply is_top_true.
Qed.

Lemma count_rows_zero_iff (f : row -> bool) (t : list row) :
  count_rows f t = 0%Z <-> forall y, In y t -> f y = false.
Proof.
  split; [|apply count_rows_none].
  unfold count_rows. induction t as [|a t IH]; intros H y Hy; [destruct Hy|].
  simpl in H. destruct (f a) eqn:Ea; [simpl in H; lia|].
  destruct Hy as [<- | Hy]; [exact Ea | now apply IH].
Qed.

Lemma hotter_same_date_false (x y : row) :
  hotter_same_date x y = false
  <-> (reading_date y = reading_date x -> (temperature y <= temperature x)%Q).
Proof.
  unfold hotter_same_date. rewrite andb_false_iff, negb_false_iff, Qle_bool_iff.
  rewrite String.eqb_neq. split.
  - intros [H|H] E; [contradiction | exact H].
  - intros H. destruct (string_dec (reading_date y) (reading_date x)) as [E|E]; auto.
Qed.

Lemma rank_one_iff (t : list row) (x : row) :
  rank_by_count t x = 1%Z
  <-> forall y, In y t -> reading_date y = reading_date x ->
                (temperature y <= temperature x)%Q.
Proof.
  unfold rank_by_count.
  assert (H : (1 + count_rows (hotter_same_date x) t = 1 <->
               count_rows (hotter_same_date x) t = 0)%Z) by lia.
  rewrite H, count_rows_zero_iff. split; intros Hall y Hy.
  - apply hotter_same_date_false. auto.
  - apply hotter_same_date_false. auto.
Qed.

(** X12: for every table the CTE query returns exactly the hottest
    records of each date: a row is in its result if and only if it is a
    record of the table, given rank 1, such that no record of the same date
    has a greater temperature. *)
Theorem query_cte_hottest (t : list row) (r : ranked_row) :
  In r (query_cte t)
  <-> exists x, In x t
                /\ r = mkRanked (city x) (reading_date x) (temperature x) 1
                /\ forall y, In y t -> reading_date y = reading_date x ->
                             (temperature y <= temperature x)%Q.
Proof.
  rewrite in_query_cte. split; intros [x (Hx & Hr & H1)]; exists x.
  - split; [exact Hx|]. split; [|now apply rank_one_iff].
    rewrite Hr. unfold ranked_by_count. now rewrite H1.
  - apply rank_one_iff in H1. split; [exact Hx|]. split; [|exact H1].
    rewrite Hr. unfold ranked_by_count. now rewrite H1.
Qed.

(** Among the records of a date that occurs in the table, one is hottest. *)
Lemma hottest_exists (d : string) (t : list row) :
  In d (map reading_date t) ->
  exists x, In x t /\ reading_date x = d
            /\ forall y, In y t -> reading_date y = d ->
                         (temperature y <= temperature x)%Q.
Proof.
  induction t as [|a t IH]; [intros []|].
  intros Hd.
  destruct (in_dec string_dec d (map reading_date t)) as [Hin|Hnot].
  - destruct (IH Hin) as [m (Hm & Hmd & Hmax)].
    destruct (string_dec (reading_date a) d) as [Ea|Ea].
    + destruct (Qlt_le_dec (temperature m) (temperature a)) as [Hlt|Hle].
      * exists a. split; [now left|]. split; [exact Ea|].
        intros y [<- | Hy] Hyd; [apply Qle_refl|].
        apply Qle_trans with (temperature m); [now apply Hmax | now apply Qlt_le_weak].
      * exists m. split; [now right|]. split; [exact Hmd|].
        intros y [<- | Hy] Hyd; [exact Hle | now apply Hmax].
    + exists m. split; [now right|]. split; [exact Hmd|].
      intros y [<- | Hy] Hyd; [contradiction | now apply Hmax].
  - destruct Hd as [Ea | Hd]; [|contradiction].
    exists a. split; [now left|]. split; [exact Ea|].
    intros y [<- | Hy] Hyd; [apply Qle_refl|].
    exfalso. apply Hnot. rewrite <- Hyd. now apply in_map.
Qed.

(** X13: for every table the result of the CTE query has a row for each
    reading date of the table and for no other date. *)
Theorem query_cte_dates (t : list row) (d : string) :
  In d (map r_reading_date (query_cte t)) <-> In d (map reading_date t).
Proof.
  split.
  - intros H. apply in_map_iff in H. destruct H as [r [<- Hr]].
    apply in_query_cte in Hr. destruct Hr as [x (Hx & -> & _)].
    cbn [ranked_by_count r_reading_date]. now apply in_map.
  - intros H. destruct (hottest_exists d t H) as [x (Hx & Hd & Hmax)].
    apply in_map_iff. exists (ranked_by_count t x). split; [exact Hd|].
    apply in_query_cte. exists x. split; [exact Hx|]. split; [reflexivity|].
    apply rank_one_iff. intros y Hy Hyd. apply Hmax; congruence.
Qed.

Lemma no_ties_top_dates (t : list row) (l : list row) :
  incl l t -> no_ties l = true ->
  NoDup (map r_reading_date (filter is_top (map (ranked_by_count t) l))).
Proof.
  induction l as [|x l IH]; intros Hincl Hties; [constructor|].
  cbn [no_ties] in Hties. apply andb_true_iff in Hties. destruct Hties as [Hx Hties].
  assert (Hl : incl l t) by (intros y Hy; apply Hincl; now right).
  specialize (IH Hl Hties).
  cbn [map filter]. destruct (is_top (ranked_by_count t x)) eqn:Htop; [|exact IH].
  cbn [map]. constructor; [|exact IH].
  intros Hin. apply in_map_iff in Hin. destruct Hin as [r [Hd Hr]].
  apply filter_In in Hr. destruct Hr as [Hr Hrtop].
  apply in_map_iff in Hr. destruct Hr as [y [<- Hy]].
  cbn [ranked_by_count r_reading_date] in Hd.
  apply is_top_true in Htop, Hrtop. cbn [ranked_by_count temp_rank] in Htop, Hrtop.
  rewrite rank_one_iff in Htop, Hrtop.
  assert (Hxy : (temperature y <= temperature x)%Q) by (apply Htop; auto).
  assert (Hyx : (temperature x <= temperature y)%Q)
    by (apply Hrtop; [apply Hincl; now left | congruence]).
  rewrite forallb_forall in Hx. specialize (Hx y Hy).
  apply negb_true_iff in Hx.
  assert (Hpeer : is_peer x y = true).
  { apply is_peer_true. split; [congruence | now apply Qle_antisym]. }
  congruence.
Qed.

(** X14: when no two records of the table share both date and
    temperature, the CTE query returns exactly one row for each distinct
    reading date of the table. *)
Theorem query_cte_one_row_per_date (t : list row) :
  no_ties t = true ->
  NoDup (map r_reading_date (query_cte t))
  /\ Permutation (map r_reading_date (query_cte t))
                 (nodup string_dec (map reading_date t)).
Proof.
  intros Hties.
  assert (Hnd : NoDup (map r_reading_date (query_cte t))).
  { eapply Permutation_NoDup.
    - apply Permutation_map, Permutation_sym, query_cte_perm.
    - apply no_ties_top_dates; [apply incl_refl | exact Hties]. }
  split; [exact Hnd|].
  apply NoDup_Permutation; [exact Hnd | apply NoDup_nodup|].
  intros d. rewrite nodup_In. split.
  - intros H. apply in_map_iff in H. destruct H as [r [<- Hr]].
    apply in_query_cte in Hr. destruct Hr as [x (Hx & -> & _)].
    cbn [ranked_by_count r_reading_date]. now apply in_map.
  - intros H. destruct (hottest_exists d t H) as [x (Hx & Hd & Hmax)].
    apply in_map_iff. exists (ranked_by_count t x). split; [exact Hd|].
    apply in_query_cte. exists x. split; [exact Hx|]. split; [reflexivity|].
    apply rank_one_iff. intros y Hy Hyd. apply Hmax; congruence.
Qed.

Lemma query_cte_one_row_per_date_witness :
  no_ties loaded_rows = true
  /\ NoDup (map r_reading_date (query_cte loaded_rows)).
Proof.
  split; [vm_compute; reflexivity|].
  apply (query_cte_one_row_per_date loaded_rows). vm_compute. reflexivity.
Defined.

(** A set of rows that misses a row of a larger set is smaller. *)
Lemma count_rows_lt (f g : row -> bool) (t : list row) (x : row) :
  (forall z, In z t -> f z = true -> g z = true) ->
  In x t -> f x = false -> g x = true ->
  (count_rows f t < count_rows g t)%Z.
Proof.
  unfold count_rows. induction t as [|a t IH]; intros Hsub Hx Hf Hg; [destruct Hx|].
  assert (Hsub' : forall z, In z t -> f z = true -> g z = true)
    by (intros z Hz; apply Hsub; now right).
  pose proof (count_rows_le f g t Hsub') as Hle. unfold count_rows in Hle.
  cbn [filter]. destruct Hx as [-> | Hx].
  - rewrite Hf, Hg. cbn [List.length]. lia.
  - specialize (IH Hsub' Hx Hf Hg).
    pose proof (Hsub a (or_introl eq_refl)) as Ha.
    destruct (f a), (g a); cbn [List.length]; lia.
Qed.

(** X15: in the ranking report of every table, of two records of the same
    date the hotter one has the strictly smaller rank, and two records of
    equal temperature have the same rank. *)
Theorem query_window_rank_order (t : list row) (a b : ranked_row) :
  In a (query_window t) -> In b (query_window t) ->
  r_reading_date a = r_reading_date b ->
  ((r_temperature b < r_temperature a)%Q -> (temp_rank a < temp_rank b)%Z)
  /\ ((r_temperature a == r_temperature b)%Q -> temp_rank a = temp_rank b).
Proof.
  intros Ha Hb Hd.
  apply in_query_window in Ha, Hb.
  destruct Ha as [x [Hx ->]], Hb as [y [Hy ->]].
  cbn [ranked_by_count r_reading_date r_temperature temp_rank] in *.
  unfold rank_by_count. split.
  - intros Hlt.
    assert (Hle : Qle_bool (temperature y) (temperature x) = true)
      by (apply Qle_bool_iff; now apply Qlt_le_weak).
    assert (count_rows (hotter_same_date x) t < count_rows (hotter_same_date y) t)%Z; [|lia].
    apply count_rows_lt with (x := x).
    + intros z _. now apply hotter_mono.
    + exact Hx.
    + apply hotter_self.
    + unfold hotter_same_date. rewrite Hd, String.eqb_refl. cbn [andb].
      apply negb_true_iff. apply not_true_iff_false. intros H.
      apply Qle_bool_iff in H. apply (Qlt_not_le _ _ Hlt H).
  - intros Heq. f_equal. apply count_rows_ext_in. intros z _.
    symmetry. apply hotter_peer. apply is_peer_true. now split.
Qed.

Lemma query_window_rank_order_witness :
  let a := mkRanked "San Diego" "2025-01-01" 15.2 1 in
  let b := mkRanked "Houston" "2025-01-01" 10.2 2 in
  In a (query_window loaded_rows) /\ In b (query_window loaded_rows)
  /\ ((r_temperature b < r_temperature a)%Q -> (temp_rank a < temp_rank b)%Z).
Proof.
  cbv zeta.
  assert (Ha : In (mkRanked "San Diego" "2025-01-01" 15.2 1) (query_window loaded_rows))
    by (vm_compute; tauto).
  assert (Hb : In (mkRanked "Houston" "2025-01-01" 10.2 2) (query_window loaded_rows))
    by (vm_compute; tauto).
  split; [exact Ha|]. split; [exact Hb|].
  apply (query_window_rank_order loaded_rows _ _ Ha Hb). reflexivity.
Defined.

Lemma count_rows_filter_map (d : string) (t : list row) (f : row -> ranked_row) :
  (forall x, r_reading_date (f x) = reading_date x) ->
  List.length (rows_of_date d (map f t))
  = List.length (filter (fun x => String.eqb (reading_date x) d) t).
Proof.
  intros Hf. unfold rows_of_date. rewrite filter_map_swap, length_map.
  f_equal. apply filter_ext. intros x. now rewrite Hf.
Qed.

(** X16: in the ranking report of every table each rank lies between 1
    and the number of rows of its date in the report. *)
Theorem query_window_rank_bounds (t : list row) :
  Forall (fun r =>
            (1 <= temp_rank r
             <= Z.of_nat (List.length (rows_of_date (r_reading_date r) (query_window t))))%Z)
         (query_window t).
Proof.
  apply Forall_forall. intros r Hr.
  apply in_query_window in Hr. destruct Hr as [x [Hx ->]].
  cbn [ranked_by_count r_reading_date temp_rank].
  assert (Hlen : List.length (rows_of_date (reading_date x) (query_window t))
                 = List.length (filter (fun y => String.eqb (reading_date y) (reading_date x)) t)).
  { rewrite <- (count_rows_filter_map (reading_date x) t (ranked_by_count t))
      by reflexivity.
    apply Permutation_length. unfold rows_of_date.
    apply Permutation_filter', query_window_perm. }
  rewrite Hlen. unfold rank_by_count.
  pose proof (count_rows_lt (hotter_same_date x)
                            (fun y => String.eqb (reading_date y) (reading_date x)) t x) as Hlt.
  unfold count_rows in *.
  assert (0 <= Z.of_nat (List.length (filter (hotter_same_date x) t)))%Z by lia.
  split; [lia|].
  assert (Z.of_nat (List.length (filter (hotter_same_date x) t))
          < Z.of_nat (List.length
                        (filter (fun y => String.eqb (reading_date y) (reading_date x)) t)))%Z;
    [|lia].
  apply Hlt.
  - intros z _ Hz. unfold hotter_same_date in Hz. apply andb_true_iff in Hz. tauto.
  - exact Hx.
  - apply hotter_self.
  - apply String.eqb_refl.
Qed.

(** ** GROUP BY and AVG on any table *)

Lemma Qsum_app (l1 l2 : list Q) : Qsum (l1 ++ l2) == Qsum l1 + Qsum l2.
Proof.
  induction l1 as [|a l1 IH]; cbn [app Qsum fold_right].
  - now rewrite Qplus_0_l.
  - fold (Qsum (l1 ++ l2)). fold (Qsum l1). rewrite IH. ring.
Qed.

Lemma Qsum_perm (l l' : list Q) : Permutation l l' -> Qsum l == Qsum l'.
Proof.
  induction 1 as [|x l l' _ IH|x y l|l l' l'' _ IH1 _ IH2]; unfold Qsum in *;
    cbn [fold_right].
  - reflexivity.
  - now rewrite IH.
  - ring.
  - now rewrite IH1.
Qed.

Lemma mean_perm (l l' : list Q) : Permutation l l' -> mean l == mean l'.
Proof.
  intros H. unfold mean.
  now rewrite (Qsum_perm _ _ H), (Permutation_length H).
Qed.

Lemma rows_of_city_app (c : string) (l1 l2 : list row) :
  rows_of_city c (l1 ++ l2) = (rows_of_city c l1 ++ rows_of_city c l2)%list.
Proof. apply filter_app. Qed.

Lemma rows_of_city_all (c : string) (l : list row) :
  Forall (fun r => city r = c) l -> rows_of_city c l = l.
Proof.
  induction 1 as [|r l Hr _ IH]; [reflexivity|].
  unfold rows_of_city in *. cbn [filter]. rewrite Hr, String.eqb_refl. now rewrite IH.
Qed.

Lemma rows_of_city_none (c : string) (l : list row) :
  Forall (fun r => city r <> c) l -> rows_of_city c l = [].
Proof.
  induction 1 as [|r l Hr _ IH]; [reflexivity|].
  unfold rows_of_city in *. cbn [filter].
  apply String.eqb_neq in Hr. now rewrite Hr.
Qed.

Lemma text_leb_true (a b : string) : text_leb a b = true <-> text_compare a b <> Gt.
Proof. unfold text_leb, lex_leb. destruct (text_compare a b); split; congruence. Qed.

(** Below a key that differs: strictly below. *)
Lemma text_leb_neq_lt (a b : string) :
  text_leb a b = true -> a <> b -> text_compare a b = Lt.
Proof.
  rewrite text_leb_true. intros H Hne.
  destruct (text_compare a b) eqn:E; [|reflexivity|congruence].
  apply text_compare_eq in E. contradiction.
Qed.

Lemma text_lt_leb_trans (a b c : string) :
  text_compare a b = Lt -> text_leb b c = true -> text_compare a c = Lt.
Proof.
  rewrite text_leb_true. intros Hab Hbc.
  destruct (text_compare b c) eqn:E; [| |congruence].
  - apply text_compare_eq in E. now subst.
  - eapply text_compare_lt_trans; eassumption.
Qed.

Lemma text_leb_lt_trans (a b c : string) :
  text_leb a b = true -> text_compare b c = Lt -> text_compare a c = Lt.
Proof.
  rewrite text_leb_true. intros Hab Hbc.
  destruct (text_compare a b) eqn:E; [| |congruence].
  - apply text_compare_eq in E. now subst.
  - eapply text_compare_lt_trans; eassumption.
Qed.

Lemma city_desc_leb_total (x y : row) :
  city_desc_leb x y = true \/ city_desc_leb y x = true.
Proof.
  destruct (lex_leb_total city (fun _ _ => true) (fun _ _ => or_introl eq_refl) y x);
    [now left | now right].
Qed.

Lemma city_desc_leb_trans (x y z : row) :
  city_desc_leb x y = true -> city_desc_leb y z = true -> city_desc_leb x z = true.
Proof.
  intros Hxy Hyz.
  exact (lex_leb_trans city (fun _ _ => true) (fun _ _ _ _ _ => eq_refl) z y x Hyz Hxy).
Qed.

Lemma group_inv_start (r : row) : group_inv [r] (group_start r).
Proof.
  unfold group_inv, group_start, avg_init, Qsum; cbn.
  repeat split; try (now rewrite Qplus_0_r). repeat constructor.
Qed.

Lemma group_inv_step (grp : list row) (g : group_acc) (r : row) :
  group_inv grp g -> city r = g_city g -> group_inv (grp ++ [r]) (group_step g r).
Proof.
  intros (Hc & Hts & Htc & Hhs & Hhc) Hr.
  unfold group_inv, group_step, avg_step; cbn [g_city g_temp g_hum rSum cnt].
  rewrite !map_app, !Qsum_app, length_app. cbn [map List.length].
  unfold Qsum at 2 4. cbn [fold_right]. rewrite Hts, Hhs, Htc, Hhc.
  repeat split; try ring; try lia.
  apply Forall_app. split; [exact Hc | repeat constructor; exact Hr].
Qed.

Lemma group_final_means (grp : list row) (g : group_acc) :
  group_inv grp g ->
  avg_temp (group_final g) == mean (map temperature grp)
  /\ avg_humidity (group_final g) == mean (map humidity grp).
Proof.
  intros (_ & Hts & Htc & Hhs & Hhc).
  unfold group_final, avg_final, mean; cbn [avg_temp avg_humidity].
  rewrite !length_map, Hts, Htc, Hhs, Hhc. split; reflexivity.
Qed.

(** The rows of a run that is sorted by descending city and starts below
    [c] are not rows of [c]. *)
Lemma sorted_below_not_city (c : string) (r : row) (rest : list row) :
  StronglySorted (fun x y => city_desc_leb x y = true) (r :: rest) ->
  text_leb (city r) c = true -> c <> city r ->
  Forall (fun z => city z <> c) (r :: rest).
Proof.
  intros Hs Hle Hne. apply StronglySorted_inv in Hs. destruct Hs as [_ Hall].
  assert (Hlt : text_compare (city r) c = Lt) by (apply text_leb_neq_lt; congruence).
  constructor; [congruence|].
  eapply Forall_impl; [|exact Hall]. cbv beta. intros z Hz E.
  pose proof (text_leb_lt_trans _ _ _ Hz Hlt) as Hzc.
  apply text_compare_lt_neq in Hzc. contradiction.
Qed.

(** The scan of GROUP BY over rows sorted by city: every row it emits
    holds the means of the records of its city. *)
Lemma group_scan_rows (rest : list row) :
  forall (grp : list row) (g : group_acc),
    group_inv grp g ->
    StronglySorted (fun x y => city_desc_leb x y = true) rest ->
    Forall (fun r => text_leb (city r) (g_city g) = true) rest ->
    Forall (fun a => In (a_city a) (g_city g :: map city rest)
                     /\ row_holds_means (grp ++ rest) a)
           (group_scan (Some g) rest).
Proof.
  induction rest as [|r rest IH]; intros grp g Hinv Hs Hab.
  - cbn [group_scan]. constructor; [|constructor].
    split; [now left|]. unfold row_holds_means.
    rewrite app_nil_r. cbn [group_final a_city].
    rewrite (rows_of_city_all _ _ (proj1 Hinv)).
    apply (group_final_means grp g Hinv).
  - cbn [group_scan].
    pose proof (StronglySorted_inv Hs) as [Hs' Hr].
    apply Forall_cons_iff in Hab. destruct Hab as [Hcr Hab].
    destruct (String.eqb (g_city g) (city r)) eqn:E.
    + apply String.eqb_eq in E.
      assert (Hinv' := group_inv_step grp g r Hinv (eq_sym E)).
      specialize (IH (grp ++ [r])%list (group_step g r) Hinv' Hs' Hab).
      eapply Forall_impl; [|exact IH]. cbv beta. intros a [Hin Hm].
      cbn [group_step g_city] in Hin. rewrite <- app_assoc in Hm. cbn [app] in Hm.
      split; [|exact Hm]. cbn [map]. destruct Hin as [<- | Hin]; [now left | now right; right].
    + apply String.eqb_neq in E.
      pose proof (sorted_below_not_city _ _ _ Hs Hcr E) as Hnot.
      constructor.
      * split; [now left|]. unfold row_holds_means. cbn [group_final a_city].
        rewrite rows_of_city_app, (rows_of_city_none _ _ Hnot), app_nil_r.
        rewrite (rows_of_city_all _ _ (proj1 Hinv)).
        apply (group_final_means grp g Hinv).
      * specialize (IH [r] (group_start r) (group_inv_start r) Hs' Hr).
        eapply Forall_impl; [|exact IH]. cbv beta. intros a [Hin Hm].
        cbn [group_start g_city] in Hin. split; [now right|].
        unfold row_holds_means in *.
        assert (Hgrp : rows_of_city (a_city a) grp = []).
        { apply rows_of_city_none. eapply Forall_impl; [|exact (proj1 Hinv)].
          cbv beta. intros z Hz Ez.
          rewrite Forall_forall in Hnot.
          assert (Hin' : exists z', In z' (r :: rest) /\ city z' = a_city a).
          { destruct Hin as [<- | Hin]; [exists r; split; [now left | reflexivity]|].
            apply in_map_iff in Hin. destruct Hin as [z' [Hz' Hin]].
            exists z'. split; [now right | exact Hz']. }
          destruct Hin' as [z' [Hz' Ecz]]. apply (Hnot z' Hz'). congruence. }
        rewrite rows_of_city_app, Hgrp. exact Hm.
Qed.

Lemma group_scan_none_rows (s : list row) :
  StronglySorted (fun x y => city_desc_leb x y = true) s ->
  Forall (fun a => In (a_city a) (map city s) /\ row_holds_means s a)
         (group_scan None s).
Proof.
  destruct s as [|r s]; intros Hs; [constructor|].
  cbn [group_scan]. apply StronglySorted_inv in Hs. destruct Hs as [Hs Hr].
  exact (group_scan_rows s [r] (group_start r) (group_inv_start r) Hs Hr).
Qed.

Lemma row_holds_means_perm (t t' : list row) (a : avg_row) :
  Permutation t t' -> row_holds_means t a -> row_holds_means t' a.
Proof.
  intros Hp [Ht Hh]. unfold row_holds_means, rows_of_city in *.
  pose proof (Permutation_filter' (fun r => String.eqb (city r) (a_city a)) _ _ Hp) as Hf.
  split.
  - rewrite Ht. apply mean_perm. now apply Permutation_map.
  - rewrite Hh. apply mean_perm. now apply Permutation_map.
Qed.

(** A row of the aggregation report: its city is a city of the table and
    it holds the means of that city's records. *)
Lemma query_avg_row_spec (t : list row) (a : avg_row) :
  In a (query_avg t) -> In (a_city a) (map city t) /\ row_holds_means t a.
Proof.
  intros Ha. unfold query_avg in Ha. apply sort_by_incl in Ha.
  pose proof (group_scan_none_rows (sort_by city_desc_leb t)
                (sort_by_sorted city_desc_leb city_desc_leb_total city_desc_leb_trans t)) as Hall.
  rewrite Forall_forall in Hall. destruct (Hall a Ha) as [Hin Hm].
  split.
  - eapply Permutation_in; [apply Permutation_map, sort_by_perm | exact Hin].
  - eapply row_holds_means_perm; [apply sort_by_perm | exact Hm].
Qed.

(** Every city the scan sees gets a row. *)
Lemma group_scan_cover (c : string) (rest : list row) :
  forall g, In c (g_city g :: map city rest) ->
            In c (map a_city (group_scan (Some g) rest)).
Proof.
  induction rest as [|r rest IH]; intros g Hc; cbn [group_scan].
  - destruct Hc as [<- | []]. now left.
  - destruct (String.eqb (g_city g) (city r)) eqn:E.
    + apply String.eqb_eq in E. apply IH. cbn [group_step g_city].
      cbn [map] in Hc. destruct Hc as [Hc | [Hc | Hc]]; [now left | left; congruence | now right].
    + cbn [map]. destruct Hc as [<- | Hc]; [now left|].
      right. apply IH. exact Hc.
Qed.

Lemma query_avg_city_cover (t : list row) (c : string) :
  In c (map city t) -> In c (map a_city (query_avg t)).
Proof.
  intros Hc. unfold query_avg.
  eapply Permutation_in; [apply Permutation_map, Permutation_sym, sort_by_perm|].
  assert (Hs : In c (map city (sort_by city_desc_leb t))).
  { eapply Permutation_in; [apply Permutation_map, Permutation_sym, sort_by_perm | exact Hc]. }
  destruct (sort_by city_desc_leb t) as [|r s]; [destruct Hs|].
  cbn [group_scan]. apply group_scan_cover. exact Hs.
Qed.

(** Over rows sorted by descending city the scan emits its cities in
    strictly decreasing order, the current group first. *)
Lemma group_scan_cities_sorted (rest : list row) :
  forall g,
    StronglySorted (fun x y => city_desc_leb x y = true) rest ->
    Forall (fun r => text_leb (city r) (g_city g) = true) rest ->
    exists tl, map a_city (group_scan (Some g) rest) = g_city g :: tl
               /\ Sorted (fun a b => text_compare b a = Lt) (g_city g :: tl).
Proof.
  induction rest as [|r rest IH]; intros g Hs Hab; cbn [group_scan].
  - exists []. split; [reflexivity | repeat constructor].
  - pose proof (StronglySorted_inv Hs) as [Hs' Hr].
    apply Forall_cons_iff in Hab. destruct Hab as [Hcr Hab].
    destruct (String.eqb (g_city g) (city r)) eqn:E.
    + exact (IH (group_step g r) Hs' Hab).
    + apply String.eqb_neq in E.
      destruct (IH (group_start r) Hs' Hr) as [tl [Htl Hsorted]].
      cbn [group_start g_city] in Htl, Hsorted.
      exists (city r :: tl). cbn [map]. rewrite Htl. split; [reflexivity|].
      constructor; [exact Hsorted|]. constructor.
      apply text_leb_neq_lt; [exact Hcr | congruence].
Qed.

Lemma sorted_gt_NoDup (l : list string) :
  Sorted (fun a b => text_compare b a = Lt) l -> NoDup l.
Proof.
  intros Hs. apply Sorted_StronglySorted in Hs;
    [|intros a b c Hab Hbc; exact (text_compare_lt_trans _ _ _ Hbc Hab)].
  induction Hs as [|a l _ IH Hall]; constructor; [|exact IH].
  intros Hin. rewrite Forall_forall in Hall. specialize (Hall a Hin).
  rewrite text_compare_refl in Hall. discriminate Hall.
Qed.

Lemma query_avg_cities_nodup (t : list row) : NoDup (map a_city (query_avg t)).
Proof.
  unfold query_avg.
  eapply Permutation_NoDup; [apply Permutation_map, Permutation_sym, sort_by_perm|].
  pose proof (sort_by_sorted city_desc_leb city_desc_leb_total city_desc_leb_trans t) as Hs.
  destruct (sort_by city_desc_leb t) as [|r s]; [constructor|].
  cbn [group_scan]. apply StronglySorted_inv in Hs. destruct Hs as [Hs Hr].
  destruct (group_scan_cities_sorted s (group_start r) Hs Hr) as [tl [-> Hsorted]].
  now apply sorted_gt_NoDup.
Qed.

(** X18: for every table the aggregation report has exactly one row for
    each distinct city of the table and no other row. *)
Theorem query_avg_one_row_per_city (t : list row) :
  NoDup (map a_city (query_avg t))
  /\ Permutation (map a_city (query_avg t)) (nodup string_dec (map city t)).
Proof.
  split; [apply query_avg_cities_nodup|].
  apply NoDup_Permutation; [apply query_avg_cities_nodup | apply NoDup_nodup|].
  intros c. rewrite nodup_In. split.
  - intros H. apply in_map_iff in H. destruct H as [a [<- Ha]].
    exact (proj1 (query_avg_row_spec t a Ha)).
  - apply query_avg_city_cover.
Qed.

Lemma avg_temp_desc_leb_total (x y : avg_row) :
  avg_temp_desc_leb x y = true \/ avg_temp_desc_leb y x = true.
Proof. unfold avg_temp_desc_leb. apply Qle_bool_total. Qed.

Lemma avg_temp_desc_leb_trans (x y z : avg_row) :
  avg_temp_desc_leb x y = true -> avg_temp_desc_leb y z = true ->
  avg_temp_desc_leb x z = true.
Proof. unfold avg_temp_desc_leb. intros H1 H2. exact (Qle_bool_trans _ _ _ H2 H1). Qed.

(** X19: for every table the rows of the aggregation report are in
    descending order of mean temperature: no row has a greater mean
    temperature than a row before it. *)
Theorem query_avg_descending (t : list row) :
  StronglySorted (fun a b => avg_temp b <= avg_temp a) (query_avg t).
Proof.
  pose proof (sort_by_sorted avg_temp_desc_leb avg_temp_desc_leb_total
                avg_temp_desc_leb_trans (group_scan None (sort_by city_desc_leb t))) as Hs.
  fold (query_avg t) in Hs.
  induction Hs as [|a l _ IH Hall]; constructor; [exact IH|].
  eapply Forall_impl; [|exact Hall]. cbv beta. intros b Hb.
  now apply Qle_bool_iff.
Qed.

(** ** The aggregation section on any connection *)


